(** * SecureRoll: a shallow embedding of [contracts/SecureRoll.sol]

    The contract keeps, per player, an encrypted points balance and the
    encrypted outcome of a dice round.  Its arithmetic on encrypted values
    goes through the FHEVM library ([FHE.add], [FHE.rem], [FHE.gt], ...);
    every such value is a [bytes32] handle whose cleartext only the
    coprocessor knows.  The embedding pairs each handle with the cleartext
    it denotes, keeps the access-control list of the FHEVM next to the
    contract storage, and runs every external function in a state monad
    with revert. *)

From stdpp Require Import gmap strings list.
From Stdlib Require Import ZArith Lia.
From Stdlib.Strings Require Import Byte.

Open Scope Z_scope.

(** ** Solidity integers *)

Module Uint.

(** [2 ^ w], the number of values of [uintw]. *)
Definition modulus (w : Z) : Z := 2 ^ w.

(** Explicit conversion to [uintw]: the high bits are cut off. *)
Definition wrap (w v : Z) : Z := v mod modulus w.

Definition max256 : Z := Eval vm_compute in modulus 256.
Definition max64 : Z := Eval vm_compute in modulus 64.

End Uint.

(** The cleartext of a byte, as a number in [0, 255]. *)
Definition byte_value (b : byte) : Z := Z.of_N (Byte.to_N b).

(** ** Reverts *)

Inductive Revert :=
| Error (reason : string)      (* require(cond, reason) *)
| Panic (code : Z)             (* compiler-inserted check, 0x11 = overflow *)
| InvalidProof                 (* FHE.fromExternal: the input proof is rejected *)
| ACLNotAllowed                (* FHEVM: caller has no access to an operand *)
| DivisionByZero.              (* FHEVM: scalar remainder by zero *)

(** The reverts of the contract's own [require] statements. *)
Definition InsufficientPayment : Revert := Error "Insufficient ETH".
Definition ActiveRoundExists : Revert := Error "Active round exists".
Definition NoActiveRound : Revert := Error "No active round".

(** ** Constants and the quote *)

Definition POINTS_PER_ETH : Z := 100000.
Definition WIN_REWARD : Z := 10000.

(** [1 ether], in wei. *)
Definition ether : Z := Eval vm_compute in 10 ^ 18.

(** Checked [uint256] multiplication of Solidity 0.8. *)
Definition checked_mul256 (a b : Z) : Revert + Z :=
  if a * b <? Uint.max256 then inr (a * b) else inl (Panic 17).

(** [uint64((weiAmount * POINTS_PER_ETH) / 1 ether)] *)
Definition quotePoints (weiAmount : Z) : Revert + Z :=
  match checked_mul256 weiAmount POINTS_PER_ETH with
  | inr product => inr (Uint.wrap 64 (product / ether))
  | inl e => inl e
  end.

(** ** Encrypted values *)

(** An [address] is a 160-bit number; the embedding never inspects it. *)
Abbreviation address := N (only parsing).

(** A value of the FHEVM: the [bytes32] handle the contract stores, and the
    cleartext the coprocessor holds for it.  The contract can read only the
    handle; the cleartext is what a user decryption returns. *)
Record enc (A : Type) := Enc { handle : N; clear : A }.
Arguments Enc {A} _ _.
Arguments handle {A} _.
Arguments clear {A} _.

Abbreviation ebool := (enc bool) (only parsing).
Abbreviation euint8 := (enc Z) (only parsing).
Abbreviation euint64 := (enc Z) (only parsing).

(** The zero handle of a storage slot that was never written. *)
Definition uninitialized {A} (zero : A) : enc A := Enc 0%N zero.

(** [FHE.isInitialized] *)
Definition isInitialized {A} (v : enc A) : bool := negb (handle v =? 0)%N.

(** ** Events *)

Inductive Event :=
| PointsPurchased (player : address) (weiAmount : Z) (points : Z)
| GameStarted (player : address) (diceHandle : N)
| GuessSubmitted (player : address) (rewardHandle : N).

(** ** The world: contract storage and the FHEVM host *)

Record World := mkWorld {
  _points : gmap address euint64;
  _lastDice : gmap address euint8;
  _lastWin : gmap address ebool;
  _lastReward : gmap address euint64;
  _hasActiveRound : gmap address bool;
  (** ACL of the FHEVM: who may use or decrypt which handle *)
  persisted : gset (N * address);
  (** allowances that live until the end of the transaction *)
  transient : gset (N * address);
  (** number of handles the coprocessor has issued so far *)
  counter : positive;
  events : list Event
}.

(** A freshly deployed contract. *)
Definition genesis : World :=
  mkWorld ∅ ∅ ∅ ∅ ∅ ∅ ∅ 1%positive [].

(** A Solidity mapping reads the zero value at a key never written. *)
Definition slot {V} (zero : V) (m : gmap address V) (k : address) : V :=
  default zero (m !! k).

Definition points_of (w : World) (a : address) : euint64 :=
  slot (uninitialized 0) (_points w) a.
Definition dice_of (w : World) (a : address) : euint8 :=
  slot (uninitialized 0) (_lastDice w) a.
Definition win_of (w : World) (a : address) : ebool :=
  slot (uninitialized false) (_lastWin w) a.
Definition reward_of (w : World) (a : address) : euint64 :=
  slot (uninitialized 0) (_lastReward w) a.
Definition active_of (w : World) (a : address) : bool :=
  slot false (_hasActiveRound w) a.

Definition set_points (a : address) (v : euint64) (w : World) : World :=
  mkWorld (<[a := v]> (_points w)) (_lastDice w) (_lastWin w) (_lastReward w)
          (_hasActiveRound w) (persisted w) (transient w) (counter w) (events w).
Definition set_lastDice (a : address) (v : euint8) (w : World) : World :=
  mkWorld (_points w) (<[a := v]> (_lastDice w)) (_lastWin w) (_lastReward w)
          (_hasActiveRound w) (persisted w) (transient w) (counter w) (events w).
Definition set_lastWin (a : address) (v : ebool) (w : World) : World :=
  mkWorld (_points w) (_lastDice w) (<[a := v]> (_lastWin w)) (_lastReward w)
          (_hasActiveRound w) (persisted w) (transient w) (counter w) (events w).
Definition set_lastReward (a : address) (v : euint64) (w : World) : World :=
  mkWorld (_points w) (_lastDice w) (_lastWin w) (<[a := v]> (_lastReward w))
          (_hasActiveRound w) (persisted w) (transient w) (counter w) (events w).
Definition set_hasActiveRound (a : address) (v : bool) (w : World) : World :=
  mkWorld (_points w) (_lastDice w) (_lastWin w) (_lastReward w)
          (<[a := v]> (_hasActiveRound w)) (persisted w) (transient w)
          (counter w) (events w).
Definition add_persisted (h : N) (a : address) (w : World) : World :=
  mkWorld (_points w) (_lastDice w) (_lastWin w) (_lastReward w)
          (_hasActiveRound w) ({[ (h, a) ]} ∪ persisted w) (transient w)
          (counter w) (events w).
Definition add_transient (h : N) (a : address) (w : World) : World :=
  mkWorld (_points w) (_lastDice w) (_lastWin w) (_lastReward w)
          (_hasActiveRound w) (persisted w) ({[ (h, a) ]} ∪ transient w)
          (counter w) (events w).
Definition clear_transient (w : World) : World :=
  mkWorld (_points w) (_lastDice w) (_lastWin w) (_lastReward w)
          (_hasActiveRound w) (persisted w) ∅ (counter w) (events w).
Definition bump_counter (w : World) : World :=
  mkWorld (_points w) (_lastDice w) (_lastWin w) (_lastReward w)
          (_hasActiveRound w) (persisted w) (transient w)
          (Pos.succ (counter w)) (events w).
Definition log_event (e : Event) (w : World) : World :=
  mkWorld (_points w) (_lastDice w) (_lastWin w) (_lastReward w)
          (_hasActiveRound w) (persisted w) (transient w) (counter w)
          (events w ++ [e]).

Arguments Uint.wrap : simpl never.
Arguments Uint.modulus : simpl never.
Arguments byte_value : simpl never.
Arguments slot : simpl never.
Arguments points_of !w a /.
Arguments dice_of !w a /.
Arguments win_of !w a /.
Arguments reward_of !w a /.
Arguments active_of !w a /.
Arguments set_points a v w /.
Arguments set_lastDice a v w /.
Arguments set_lastWin a v w /.
Arguments set_lastReward a v w /.
Arguments set_hasActiveRound a v w /.
Arguments add_persisted h a w /.
Arguments add_transient h a w /.
Arguments clear_transient w /.
Arguments bump_counter w /.
Arguments log_event e w /.

(** ** The execution monad

    A computation runs on a world and either finishes with a value or
    reverts.  A revert keeps the world it was raised in, so that one can
    see what had been written by then; [transact] below throws that world
    away, as the EVM does. *)

Inductive Outcome (A : Type) :=
| Done (a : A) (w : World)
| Reverted (e : Revert) (w : World).
Arguments Done {A} _ _.
Arguments Reverted {A} _ _.

Definition M (A : Type) : Type := World -> Outcome A.

Definition ret {A} (a : A) : M A := fun w => Done a w.

Definition bind {A B} (m : M A) (k : A -> M B) : M B :=
  fun w => match m w with
           | Done a w' => k a w'
           | Reverted e w' => Reverted e w'
           end.

Notation "'let*' x ':=' m 'in' k" := (bind m (fun x => k))
  (at level 10, x name, m at level 100, k at level 200).
Notation "m ';;' k" := (bind m (fun _ => k))
  (at level 100, k at level 200, right associativity).

Definition revert {A} (e : Revert) : M A := fun w => Reverted e w.
Definition read {A} (f : World -> A) : M A := fun w => Done (f w) w.
Definition write (f : World -> World) : M unit := fun w => Done tt (f w).

(** [require(cond, reason)] *)
Definition require (cond : bool) (e : Revert) : M unit :=
  if cond then ret tt else revert e.

(** [emit] *)
Definition emit (e : Event) : M unit := write (log_event e).

(** A pure computation that may revert, run inside [M]. *)
Definition lift {A} (r : Revert + A) : M A :=
  match r with inr a => ret a | inl e => revert e end.

(** What a decryption of a stored value returns: the zero handle stands for
    the zero value (the FHEVM library substitutes a trivial encryption of
    zero for it, and the scripts of the repository print 0 for it). *)
Definition plain {A} (zero : A) (v : enc A) : A :=
  if isInitialized v then clear v else zero.

Arguments plain : simpl never.

Inductive Call :=
| BuyPoints (value : Z)
| StartGame
| SubmitGuess (encryptedGuess : N) (inputProof : list byte).

Inductive Receipt :=
| Succeeded
| Failed (e : Revert).

(** [msg.value] is a [uint256]. *)
Definition well_formed (c : Call) : bool :=
  match c with
  | BuyPoints value => (0 <=? value) && (value <? Uint.max256)
  | _ => true
  end.

(** The guesses of [test/SecureRoll.ts]: [clearDice > 3n ? 1 : 2] is the
    guess the tests expect to win, and [clearDice > 3n ? 2 : 1] the guess
    they expect to lose. *)
Definition correctGuess (clearDice : Z) : Z := if 3 <? clearDice then 1 else 2.
Definition wrongGuess (clearDice : Z) : Z := if 3 <? clearDice then 2 else 1.

(** A small environment to run the contract in: the contract's own address,
    two players, an input verifier that accepts one-byte proofs (the proof
    is the sealed cleartext), and a source that always draws the same byte. *)
Module Sample.

Definition contract : address := 1000%N.
Definition alice : address := 1%N.
Definition bob : address := 2%N.

Definition verifier (contract user : address) (h : N) (proof : list byte)
    : option byte :=
  match proof with
  | [b] => Some b
  | _ => None
  end.

Definition source (b : byte) (n : positive) : byte := b.

(** The payment that buys [2 ^ 64 - 1] points. *)
Definition fortune : Z := (2 ^ 64 - 1) * 10 ^ 13.

(** The payment that buys one point. *)
Definition pittance : Z := 10 ^ 13.

(** alice buys one ether of points and opens a round. *)
Definition round_open : list (address * Call) :=
  [(alice, BuyPoints (10 ^ 18)); (alice, StartGame)].

(** alice fills her balance and opens a round. *)
Definition rich_round_open : list (address * Call) :=
  [(alice, BuyPoints fortune); (alice, StartGame)].

End Sample.

Section Contract.

(** [address(this)] *)
Variable this : address.

(** The input verifier of the FHEVM.  [inputVerifier contract user h proof]
    is the cleartext sealed under the external handle [h] when [proof]
    certifies it for that contract and that user, and [None] when the
    proof is rejected. *)
Variable inputVerifier : address -> address -> N -> list byte -> option byte.

(** The byte the coprocessor draws for the handle it issues as number [n]. *)
Variable randomness : positive -> byte.

(** *** The FHEVM library, as the contract uses it *)

(** [ACL.isAllowed]: a transient or a persistent allowance. *)
Definition isAllowed (h : N) (a : address) (w : World) : bool :=
  bool_decide ((h, a) ∈ transient w) || bool_decide ((h, a) ∈ persisted w).

(** The coprocessor issues a new handle for a result; the calling contract
    may use it until the end of the transaction. *)
Definition issue {A} (v : A) : M (enc A) :=
  fun w => let h := Npos (counter w) in
           Done (Enc h v) (add_transient h this (bump_counter w)).

(** [FHE.asEuint8], [FHE.asEuint64]: trivial encryption of a cleartext. *)
Definition FHE_asEuint8 (value : Z) : M euint8 := issue (Uint.wrap 8 value).
Definition FHE_asEuint64 (value : Z) : M euint64 := issue (Uint.wrap 64 value).

(** An operand of a homomorphic operation: the library replaces an
    uninitialized handle by a trivial encryption of zero, and the executor
    rejects a handle the contract has no access to. *)
Definition operand {A} (zero : A) (v : enc A) : M (enc A) :=
  let* v' := (if isInitialized v then ret v else issue zero) in
  let* ok := read (isAllowed (handle v') this) in
  require ok ACLNotAllowed ;;
  ret v'.

Definition binary {A B} (zero : A) (f : A -> A -> B) (a b : enc A) : M (enc B) :=
  let* a' := operand zero a in
  let* b' := operand zero b in
  issue (f (clear a') (clear b')).

(** [FHE.randEuint8] *)
Definition FHE_randEuint8 : M euint8 :=
  fun w => issue (byte_value (randomness (counter w))) w.

(** [FHE.rem(euint8, uint8)] *)
Definition FHE_rem8 (a : euint8) (b : Z) : M euint8 :=
  let* a' := operand 0 a in
  require (negb (b =? 0)) DivisionByZero ;;
  issue (clear a' mod b).

(** [FHE.add(euint8, uint8)]: wraps at 8 bits. *)
Definition FHE_add8 (a : euint8) (b : Z) : M euint8 :=
  let* a' := operand 0 a in
  issue (Uint.wrap 8 (clear a' + b)).

(** [FHE.add(euint64, euint64)]: wraps at 64 bits. *)
Definition FHE_add64 (a b : euint64) : M euint64 :=
  binary 0 (fun x y => Uint.wrap 64 (x + y)) a b.

(** [FHE.gt(euint8, euint8)] *)
Definition FHE_gt8 (a b : euint8) : M ebool :=
  binary 0 (fun x y => y <? x) a b.

(** [FHE.eq(euint8, euint8)] *)
Definition FHE_eq8 (a b : euint8) : M ebool :=
  binary 0 (fun x y => x =? y) a b.

(** [FHE.select(ebool, euintN, euintN)] *)
Definition FHE_select (control : ebool) (a b : enc Z) : M (enc Z) :=
  let* c := operand false control in
  let* a' := operand 0 a in
  let* b' := operand 0 b in
  issue (if clear c then clear a' else clear b').

(** What the input verifier accepts for [user].  A handle carries its
    type and chain, so the zero handle is never a valid [euint8] input. *)
Definition verifyInput (user : address) (h : N) (proof : list byte) : option byte :=
  if (h =? 0)%N then None else inputVerifier this user h proof.

(** [FHE.fromExternal(externalEuint8, bytes)] *)
Definition FHE_fromExternal (user : address) (h : N) (proof : list byte) : M euint8 :=
  match verifyInput user h proof with
  | Some b => write (add_transient h this) ;; ret (Enc h (byte_value b))
  | None => revert InvalidProof
  end.

(** [FHE.allow]: the caller must itself have access to the handle. *)
Definition FHE_allow {A} (v : enc A) (account : address) : M unit :=
  let* ok := read (isAllowed (handle v) this) in
  require ok ACLNotAllowed ;;
  write (add_persisted (handle v) account).

(** [FHE.allowThis] *)
Definition FHE_allowThis {A} (v : enc A) : M unit := FHE_allow v this.

(** *** The contract *)

Definition buyPoints (sender : address) (value : Z) : M unit :=
  let* pointsToAdd := lift (quotePoints value) in
  require (0 <? pointsToAdd) InsufficientPayment ;;
  let* encryptedToAdd := FHE_asEuint64 pointsToAdd in
  let* balance := read (fun w => points_of w sender) in
  let* total := FHE_add64 balance encryptedToAdd in
  write (set_points sender total) ;;
  let* stored := read (fun w => points_of w sender) in
  FHE_allowThis stored ;;
  FHE_allow stored sender ;;
  emit (PointsPurchased sender value pointsToAdd).

Definition startGame (sender : address) : M unit :=
  let* active := read (fun w => active_of w sender) in
  require (negb active) ActiveRoundExists ;;
  let* roll0to255 := FHE_randEuint8 in
  let* roll0to5 := FHE_rem8 roll0to255 6 in
  let* dice := FHE_add8 roll0to5 1 in
  write (set_lastDice sender dice) ;;
  write (set_hasActiveRound sender true) ;;
  let* stored := read (fun w => dice_of w sender) in
  FHE_allowThis stored ;;
  FHE_allow stored sender ;;
  emit (GameStarted sender (handle stored)).

Definition submitGuess (sender : address) (encryptedGuess : N)
    (inputProof : list byte) : M unit :=
  let* active := read (fun w => active_of w sender) in
  require active NoActiveRound ;;
  let* guess := FHE_fromExternal sender encryptedGuess inputProof in
  let* dice := read (fun w => dice_of w sender) in
  let* three := FHE_asEuint8 3 in
  let* diceIsBig := FHE_gt8 dice three in
  let* one := FHE_asEuint8 1 in
  let* two := FHE_asEuint8 2 in
  let* expected := FHE_select diceIsBig one two in
  let* win := FHE_eq8 guess expected in
  let* prize := FHE_asEuint64 WIN_REWARD in
  let* nothing := FHE_asEuint64 0 in
  let* reward := FHE_select win prize nothing in
  let* balance := read (fun w => points_of w sender) in
  let* total := FHE_add64 balance reward in
  write (set_points sender total) ;;
  write (set_lastWin sender win) ;;
  write (set_lastReward sender reward) ;;
  write (set_hasActiveRound sender false) ;;
  let* storedPoints := read (fun w => points_of w sender) in
  FHE_allowThis storedPoints ;;
  FHE_allow storedPoints sender ;;
  let* storedWin := read (fun w => win_of w sender) in
  FHE_allowThis storedWin ;;
  FHE_allow storedWin sender ;;
  let* storedReward := read (fun w => reward_of w sender) in
  FHE_allowThis storedReward ;;
  FHE_allow storedReward sender ;;
  emit (GuessSubmitted sender (handle storedReward)).

(** The view functions. *)
Definition hasActiveRound (w : World) (player : address) : bool :=
  active_of w player.
Definition getEncryptedPoints (w : World) (player : address) : N :=
  handle (points_of w player).
Definition getLastEncryptedDice (w : World) (player : address) : N :=
  handle (dice_of w player).
Definition getLastEncryptedWin (w : World) (player : address) : N :=
  handle (win_of w player).
Definition getLastEncryptedReward (w : World) (player : address) : N :=
  handle (reward_of w player).

(** *** Transactions *)

Definition dispatch (sender : address) (c : Call) : M unit :=
  match c with
  | BuyPoints value => buyPoints sender value
  | StartGame => startGame sender
  | SubmitGuess encryptedGuess inputProof =>
      submitGuess sender encryptedGuess inputProof
  end.

(** A transaction either commits the world its call ended in (the
    transient allowances end with it) or reverts to the world it started
    in. *)
Definition transact (sender : address) (c : Call) (w : World) : Receipt * World :=
  match dispatch sender c w with
  | Done _ w' => (Succeeded, clear_transient w')
  | Reverted e _ => (Failed e, w)
  end.

(** The worlds the contract can be in: the deployment, followed by any
    well-formed calls from any senders. *)
Inductive reachable : World -> Prop :=
| reachable_genesis : reachable genesis
| reachable_transact w sender c :
    reachable w -> well_formed c = true ->
    reachable (snd (transact sender c w)).

(** Running a list of transactions, oldest first. *)
Fixpoint run (txs : list (address * Call)) (w : World) : World :=
  match txs with
  | [] => w
  | (sender, c) :: rest => run rest (snd (transact sender c w))
  end.

(** Rounds [player] has opened, and rounds [player] has resolved, while
    [txs] ran from [w]: the committed [startGame] and [submitGuess] calls. *)
Fixpoint opened (player : address) (txs : list (address * Call)) (w : World) : nat :=
  match txs with
  | [] => 0%nat
  | (sender, c) :: rest =>
      (match c, fst (transact sender c w) with
       | StartGame, Succeeded => if (sender =? player)%N then 1 else 0
       | _, _ => 0
       end + opened player rest (snd (transact sender c w)))%nat
  end.

Fixpoint resolved (player : address) (txs : list (address * Call)) (w : World) : nat :=
  match txs with
  | [] => 0%nat
  | (sender, c) :: rest =>
      (match c, fst (transact sender c w) with
       | SubmitGuess _ _, Succeeded => if (sender =? player)%N then 1 else 0
       | _, _ => 0
       end + resolved player rest (snd (transact sender c w)))%nat
  end.

(** No transaction of [txs] is a [submitGuess] of [player]. *)
Definition no_submit_by (player : address) (txs : list (address * Call)) : bool :=
  forallb (fun tx => match tx with
                     | (sender, SubmitGuess _ _) => negb (sender =? player)%N
                     | _ => true
                     end) txs.

(** The number of rounds [player] has open in [w]. *)
Definition active_rounds (w : World) (player : address) : nat :=
  if active_of w player then 1%nat else 0%nat.

(** *** Predicates for reasoning about runs *)

(** [m] finishes on [w] and its result satisfies [Q]. *)
Definition wp {A} (m : M A) (w : World) (Q : A -> World -> Prop) : Prop :=
  match m w with
  | Done a w' => Q a w'
  | Reverted _ _ => False
  end.

(** [w'] has every allowance of [w]. *)
Definition acl_le (w w' : World) : Prop :=
  transient w ⊆ transient w' ∧ persisted w ⊆ persisted w'.

(** What a homomorphic operation does to the world: it issues handles and
    transient allowances, and touches nothing else. *)
Record grows (w w' : World) : Prop := Grows {
  grows_points : _points w' = _points w;
  grows_lastDice : _lastDice w' = _lastDice w;
  grows_lastWin : _lastWin w' = _lastWin w;
  grows_lastReward : _lastReward w' = _lastReward w;
  grows_hasActiveRound : _hasActiveRound w' = _hasActiveRound w;
  grows_events : events w' = events w;
  grows_persisted : persisted w' = persisted w;
  grows_transient : transient w ⊆ transient w'
}.

(** The contract may use [v] as it is. *)
Definition ready {A} (v : enc A) (w : World) : Prop :=
  isInitialized v = true ∧ isAllowed (handle v) this w = true.

(** The contract may pass [v] to an operation: it is the zero handle, or
    the contract has access to it. *)
Definition admissible {A} (v : enc A) (w : World) : Prop :=
  isInitialized v = true -> isAllowed (handle v) this w = true.

(** A stored value the contract can use in later transactions. *)
Definition kept {A} (v : enc A) (w : World) : Prop :=
  isInitialized v = true -> (handle v, this) ∈ persisted w.

(** The invariant of the contract storage. *)
Record Inv (w : World) : Prop := mkInv {
  inv_points_kept : forall a, kept (points_of w a) w;
  inv_dice_kept : forall a, kept (dice_of w a) w;
  inv_points_range : forall a, 0 <= plain 0 (points_of w a) < Uint.max64;
  inv_dice_range : forall a,
    isInitialized (dice_of w a) = true -> 1 <= clear (dice_of w a) <= 6;
  inv_active_dice : forall a,
    active_of w a = true -> isInitialized (dice_of w a) = true
}.

(** What a successful [buyPoints] leaves behind. *)
Record buyPoints_post (sender : address) (value pointsToAdd : Z)
    (w w' : World) : Prop := {
  bp_points : plain 0 (points_of w' sender)
              = Uint.wrap 64 (plain 0 (points_of w sender) + pointsToAdd);
  bp_init : isInitialized (points_of w' sender) = true;
  bp_this : (handle (points_of w' sender), this) ∈ persisted w';
  bp_sender : (handle (points_of w' sender), sender) ∈ persisted w';
  bp_persisted : persisted w ⊆ persisted w';
  bp_others : forall a, a <> sender -> points_of w' a = points_of w a;
  bp_lastDice : _lastDice w' = _lastDice w;
  bp_lastWin : _lastWin w' = _lastWin w;
  bp_lastReward : _lastReward w' = _lastReward w;
  bp_hasActiveRound : _hasActiveRound w' = _hasActiveRound w;
  bp_events : events w' = events w ++ [PointsPurchased sender value pointsToAdd]
}.

(** What a successful [startGame] leaves behind. *)
Record startGame_post (sender : address) (w w' : World) : Prop := {
  st_active : active_of w' sender = true;
  st_dice : clear (dice_of w' sender)
            = byte_value (randomness (counter w)) mod 6 + 1;
  st_init : isInitialized (dice_of w' sender) = true;
  st_this : (handle (dice_of w' sender), this) ∈ persisted w';
  st_sender : (handle (dice_of w' sender), sender) ∈ persisted w';
  st_persisted : persisted w ⊆ persisted w';
  st_others_dice : forall a, a <> sender -> dice_of w' a = dice_of w a;
  st_others_active : forall a, a <> sender -> active_of w' a = active_of w a;
  st_points : _points w' = _points w;
  st_lastWin : _lastWin w' = _lastWin w;
  st_lastReward : _lastReward w' = _lastReward w;
  st_events : events w'
              = events w ++ [GameStarted sender (handle (dice_of w' sender))]
}.

(** What a successful [submitGuess] with the guess [g] leaves behind. *)
Record submitGuess_post (sender : address) (g : Z) (w w' : World) : Prop := {
  su_win : plain false (win_of w' sender)
           = (g =? (if 3 <? plain 0 (dice_of w sender) then 1 else 2));
  su_reward : plain 0 (reward_of w' sender)
              = (if plain false (win_of w' sender) then WIN_REWARD else 0);
  su_points : plain 0 (points_of w' sender)
              = Uint.wrap 64 (plain 0 (points_of w sender)
                              + plain 0 (reward_of w' sender));
  su_active : active_of w' sender = false;
  su_points_init : isInitialized (points_of w' sender) = true;
  su_win_init : isInitialized (win_of w' sender) = true;
  su_reward_init : isInitialized (reward_of w' sender) = true;
  su_points_this : (handle (points_of w' sender), this) ∈ persisted w';
  su_points_sender : (handle (points_of w' sender), sender) ∈ persisted w';
  su_win_this : (handle (win_of w' sender), this) ∈ persisted w';
  su_win_sender : (handle (win_of w' sender), sender) ∈ persisted w';
  su_reward_this : (handle (reward_of w' sender), this) ∈ persisted w';
  su_reward_sender : (handle (reward_of w' sender), sender) ∈ persisted w';
  su_persisted : persisted w ⊆ persisted w';
  su_others_points : forall a, a <> sender -> points_of w' a = points_of w a;
  su_others_active : forall a, a <> sender -> active_of w' a = active_of w a;
  su_lastDice : _lastDice w' = _lastDice w;
  su_events : events w'
              = events w ++ [GuessSubmitted sender (handle (reward_of w' sender))]
}.

(** *** Predicates for whole-contract properties *)

(** The player an event is about. *)
Definition event_player (e : Event) : address :=
  match e with
  | PointsPurchased player _ _ => player
  | GameStarted player _ => player
  | GuessSubmitted player _ => player
  end.

(** [w'] differs from [w] at most in what a call of [sender] may touch: the
    slots of the other players are the same, no allowance is gone, and the
    log is extended by events about [sender]. *)
Record touches_only (sender : address) (w w' : World) : Prop := {
  to_points : forall a, a <> sender -> points_of w' a = points_of w a;
  to_dice : forall a, a <> sender -> dice_of w' a = dice_of w a;
  to_win : forall a, a <> sender -> win_of w' a = win_of w a;
  to_reward : forall a, a <> sender -> reward_of w' a = reward_of w a;
  to_active : forall a, a <> sender -> active_of w' a = active_of w a;
  to_persisted : persisted w ⊆ persisted w';
  to_events : exists new,
    events w' = events w ++ new
    ∧ Forall (fun e => event_player e = sender) new
}.

(** Every finished run of [m] relates its two worlds by [R]. *)
Definition keeps (R : World -> World -> Prop) {A} (m : M A) : Prop :=
  forall w a w', m w = Done a w' -> R w w'.

(** Every value stored for a player can be decrypted by that player and
    used by the contract. *)
Definition granted {A} (v : enc A) (a : address) (w : World) : Prop :=
  isInitialized v = true ->
  (handle v, a) ∈ persisted w ∧ (handle v, this) ∈ persisted w.

Record Granted (w : World) : Prop := {
  gr_points : forall a, granted (points_of w a) a w;
  gr_dice : forall a, granted (dice_of w a) a w;
  gr_win : forall a, granted (win_of w a) a w;
  gr_reward : forall a, granted (reward_of w a) a w
}.

(** The last outcome stored for every player is a consistent one. *)
Definition outcome_consistent (w : World) : Prop :=
  forall a,
    plain 0 (reward_of w a) = (if plain false (win_of w a) then WIN_REWARD else 0).

(** Whether a receipt is a success. *)
Definition succeeded (r : Receipt) : bool :=
  match r with
  | Succeeded => true
  | Failed _ => false
  end.

(** The transactions of [txs] that commit when run from [w]. *)
Fixpoint commits (txs : list (address * Call)) (w : World) : nat :=
  match txs with
  | [] => 0%nat
  | (sender, c) :: rest =>
      ((if succeeded (fst (transact sender c w)) then 1 else 0)
       + commits rest (snd (transact sender c w)))%nat
  end.

(** The points credited to [player] while [txs] ran from [w]: the quotes
    of the purchases and the rewards of the guesses that committed. *)
Fixpoint credited (player : address) (txs : list (address * Call)) (w : World) : Z :=
  match txs with
  | [] => 0
  | (sender, c) :: rest =>
      (if (sender =? player)%N && succeeded (fst (transact sender c w))
       then match c with
            | BuyPoints value =>
                match quotePoints value with
                | inr p => p
                | inl _ => 0
                end
            | StartGame => 0
            | SubmitGuess _ _ =>
                plain 0 (reward_of (snd (transact sender c w)) player)
            end
       else 0)
      + credited player rest (snd (transact sender c w))
  end.

(** The event a committed call logs, given the world it ended in. *)
Definition logged (sender : address) (c : Call) (w' : World) : list Event :=
  match c with
  | BuyPoints value =>
      match quotePoints value with
      | inr p => [PointsPurchased sender value p]
      | inl _ => []
      end
  | StartGame => [GameStarted sender (getLastEncryptedDice w' sender)]
  | SubmitGuess _ _ =>
      [GuessSubmitted sender (getLastEncryptedReward w' sender)]
  end.

(** The receipt of a call, read off the quote, the round flag and the
    input verifier alone. *)
Definition receipt_of (sender : address) (c : Call) (w : World) : Receipt :=
  match c with
  | BuyPoints value =>
      match quotePoints value with
      | inl e => Failed e
      | inr p => if 0 <? p then Succeeded else Failed InsufficientPayment
      end
  | StartGame =>
      if hasActiveRound w sender then Failed ActiveRoundExists else Succeeded
  | SubmitGuess h proof =>
      if hasActiveRound w sender
      then match verifyInput sender h proof with
           | Some _ => Succeeded
           | None => Failed InvalidProof
           end
      else Failed NoActiveRound
  end.

(** ** Integers *)

Lemma wrap_range w v : 0 <= w -> 0 <= Uint.wrap w v < Uint.modulus w.
Proof.
  intros Hw. unfold Uint.wrap, Uint.modulus.
  apply Z.mod_pos_bound. apply Z.pow_pos_nonneg; lia.
Qed.

Lemma wrap_small w v : 0 <= v < Uint.modulus w -> Uint.wrap w v = v.
Proof. intros H. unfold Uint.wrap. now apply Z.mod_small. Qed.

Lemma modulus_64 : Uint.modulus 64 = Uint.max64.
Proof. reflexivity. Qed.

Lemma modulus_8 : Uint.modulus 8 = 256.
Proof. reflexivity. Qed.

Lemma byte_value_range b : 0 <= byte_value b < 256.
Proof.
  unfold byte_value. pose proof (Byte.to_N_bounded b) as H. lia.
Qed.

(** ** The monad *)

Lemma wp_elim {A} (m : M A) w Q :
  wp m w Q -> exists a w', m w = Done a w' ∧ Q a w'.
Proof. unfold wp. destruct (m w); [eauto | tauto]. Qed.

Lemma wp_ret {A} (a : A) w (Q : A -> World -> Prop) : Q a w -> wp (ret a) w Q.
Proof. auto. Qed.

Lemma wp_bind {A B} (m : M A) (k : A -> M B) w Q :
  wp m w (fun a w' => wp (k a) w' Q) -> wp (bind m k) w Q.
Proof. unfold wp, bind. destruct (m w); [auto | tauto]. Qed.

Lemma wp_read {A} (f : World -> A) w (Q : A -> World -> Prop) :
  Q (f w) w -> wp (read f) w Q.
Proof. auto. Qed.

Lemma wp_write (f : World -> World) w (Q : unit -> World -> Prop) :
  Q tt (f w) -> wp (write f) w Q.
Proof. auto. Qed.

Lemma wp_require cond e w (Q : unit -> World -> Prop) :
  cond = true -> Q tt w -> wp (require cond e) w Q.
Proof. intros -> H. exact H. Qed.

Lemma wp_emit ev w (Q : unit -> World -> Prop) :
  Q tt (log_event ev w) -> wp (emit ev) w Q.
Proof. auto. Qed.

(** ** Allowances *)

Lemma grows_acl_le w w' : grows w w' -> acl_le w w'.
Proof. intros [_ _ _ _ _ _ Hp Ht]. split; [assumption | now rewrite Hp]. Qed.

Lemma grows_refl w : grows w w.
Proof. split; set_solver. Qed.

Lemma grows_trans w1 w2 w3 : grows w1 w2 -> grows w2 w3 -> grows w1 w3.
Proof.
  intros [? ? ? ? ? ? ? Ht1] [? ? ? ? ? ? ? Ht2]. split; try congruence.
  etransitivity; eassumption.
Qed.

Lemma isAllowed_true h a w :
  isAllowed h a w = true <-> (h, a) ∈ transient w ∨ (h, a) ∈ persisted w.
Proof.
  unfold isAllowed. rewrite orb_true_iff, !bool_decide_eq_true. tauto.
Qed.

Lemma isAllowed_mono h a w w' :
  acl_le w w' -> isAllowed h a w = true -> isAllowed h a w' = true.
Proof. rewrite !isAllowed_true. intros [] []; set_solver. Qed.

Lemma isAllowed_persisted h a w :
  (h, a) ∈ persisted w -> isAllowed h a w = true.
Proof. rewrite isAllowed_true. tauto. Qed.

Lemma ready_mono {A} (v : enc A) w w' : acl_le w w' -> ready v w -> ready v w'.
Proof. intros Hle [Hi Ha]. split; [assumption |]. eapply isAllowed_mono; eauto. Qed.

Lemma admissible_mono {A} (v : enc A) w w' :
  acl_le w w' -> admissible v w -> admissible v w'.
Proof. intros Hle H Hi. eapply isAllowed_mono; eauto. Qed.

Lemma ready_admissible {A} (v : enc A) w : ready v w -> admissible v w.
Proof. intros [_ H] _. exact H. Qed.

Lemma kept_admissible {A} (v : enc A) w : kept v w -> admissible v w.
Proof. intros H Hi. apply isAllowed_persisted. auto. Qed.

Lemma plain_ready {A} (zero : A) (v : enc A) w : ready v w -> plain zero v = clear v.
Proof. intros [Hi _]. unfold plain. now rewrite Hi. Qed.

(** ** The FHEVM operations *)

Lemma wp_issue {A} (v : A) w (Q : enc A -> World -> Prop) :
  (forall r w', grows w w' -> ready r w' -> clear r = v ->
                handle r = Npos (counter w) -> Q r w') ->
  wp (issue v) w Q.
Proof.
  intros H. unfold wp, issue. apply H; try reflexivity.
  - split; try reflexivity. simpl. set_solver.
  - split; [reflexivity |]. apply isAllowed_true. left. simpl. set_solver.
Qed.

Lemma wp_operand {A} (zero : A) (v : enc A) w (Q : enc A -> World -> Prop) :
  admissible v w ->
  (forall v' w', grows w w' -> ready v' w' -> clear v' = plain zero v -> Q v' w') ->
  wp (operand zero v) w Q.
Proof.
  intros Hadm H. unfold operand. apply wp_bind.
  unfold plain in H. destruct (isInitialized v) eqn:Hi.
  - apply wp_ret, wp_bind, wp_read, wp_bind.
    apply wp_require; [auto |]. apply wp_ret.
    apply H; [apply grows_refl | split; auto | reflexivity].
  - apply wp_issue. intros r w' Hg Hr Hc _.
    apply wp_bind, wp_read, wp_bind.
    apply wp_require; [apply Hr |]. apply wp_ret. auto.
Qed.

Lemma wp_binary {A B} (zero : A) (f : A -> A -> B) a b w (Q : enc B -> World -> Prop) :
  admissible a w -> admissible b w ->
  (forall r w', grows w w' -> ready r w' ->
                clear r = f (plain zero a) (plain zero b) -> Q r w') ->
  wp (binary zero f a b) w Q.
Proof.
  intros Ha Hb H. unfold binary. apply wp_bind, wp_operand; [assumption |].
  intros a' w1 Hg1 _ Hca. apply wp_bind, wp_operand.
  { apply (admissible_mono _ w); [apply grows_acl_le |]; assumption. }
  intros b' w2 Hg2 _ Hcb. apply wp_issue. intros r w3 Hg3 Hr Hc _.
  apply H; [| assumption | congruence].
  eauto using grows_trans.
Qed.

Lemma wp_select control a b w (Q : enc Z -> World -> Prop) :
  admissible control w -> admissible a w -> admissible b w ->
  (forall r w', grows w w' -> ready r w' ->
                clear r = (if plain false control then plain 0 a else plain 0 b) ->
                Q r w') ->
  wp (FHE_select control a b) w Q.
Proof.
  intros Hc Ha Hb H. unfold FHE_select.
  apply wp_bind, wp_operand; [assumption |]. intros c' w1 Hg1 _ Hcc.
  apply wp_bind, wp_operand.
  { apply (admissible_mono _ w); [apply grows_acl_le |]; assumption. }
  intros a' w2 Hg2 _ Hca. apply wp_bind, wp_operand.
  { apply (admissible_mono _ w); [| assumption].
    apply grows_acl_le. eauto using grows_trans. }
  intros b' w3 Hg3 _ Hcb. apply wp_issue. intros r w4 Hg4 Hr Hcr _.
  apply H; [| assumption | now rewrite Hcr, Hcc, Hca, Hcb].
  eauto using grows_trans.
Qed.

Lemma wp_randEuint8 w (Q : enc Z -> World -> Prop) :
  (forall r w', grows w w' -> ready r w' ->
                clear r = byte_value (randomness (counter w)) -> Q r w') ->
  wp FHE_randEuint8 w Q.
Proof.
  intros H. unfold FHE_randEuint8, wp.
  apply (wp_issue (byte_value (randomness (counter w))) w Q). auto.
Qed.

Lemma wp_rem8 a b w (Q : enc Z -> World -> Prop) :
  admissible a w -> b <> 0 ->
  (forall r w', grows w w' -> ready r w' -> clear r = plain 0 a mod b -> Q r w') ->
  wp (FHE_rem8 a b) w Q.
Proof.
  intros Ha Hb H. unfold FHE_rem8.
  apply wp_bind, wp_operand; [assumption |]. intros a' w1 Hg1 _ Hca.
  apply wp_bind, wp_require.
  { apply negb_true_iff. apply Z.eqb_neq. exact Hb. }
  apply wp_issue. intros r w2 Hg2 Hr Hc _.
  apply H; [| assumption | congruence]. eauto using grows_trans.
Qed.

Lemma wp_add8 a b w (Q : enc Z -> World -> Prop) :
  admissible a w ->
  (forall r w', grows w w' -> ready r w' ->
                clear r = Uint.wrap 8 (plain 0 a + b) -> Q r w') ->
  wp (FHE_add8 a b) w Q.
Proof.
  intros Ha H. unfold FHE_add8.
  apply wp_bind, wp_operand; [assumption |]. intros a' w1 Hg1 _ Hca.
  apply wp_issue. intros r w2 Hg2 Hr Hc _.
  apply H; [| assumption | congruence]. eauto using grows_trans.
Qed.

Lemma wp_fromExternal user h proof b w (Q : enc Z -> World -> Prop) :
  verifyInput user h proof = Some b ->
  (forall r w', grows w w' -> ready r w' -> clear r = byte_value b -> Q r w') ->
  wp (FHE_fromExternal user h proof) w Q.
Proof.
  intros Hv H. unfold FHE_fromExternal. rewrite Hv.
  apply wp_bind, wp_write, wp_ret. apply H; [| | reflexivity].
  - split; try reflexivity. simpl. set_solver.
  - split.
    + unfold verifyInput in Hv. unfold isInitialized. simpl.
      destruct (h =? 0)%N; [discriminate | reflexivity].
    + apply isAllowed_true. left. simpl. set_solver.
Qed.

Lemma wp_allow {A} (v : enc A) account w (Q : unit -> World -> Prop) :
  isAllowed (handle v) this w = true ->
  Q tt (add_persisted (handle v) account w) ->
  wp (FHE_allow v account) w Q.
Proof.
  intros Ha H. unfold FHE_allow.
  apply wp_bind, wp_read, wp_bind, wp_require; [assumption |].
  apply wp_write, H.
Qed.

(** ** Storage *)

Arguments isAllowed : simpl never.

Lemma slot_insert_eq {V} (zero : V) m k v : slot zero (<[k := v]> m) k = v.
Proof. unfold slot. now rewrite lookup_insert_eq. Qed.

Lemma slot_insert_ne {V} (zero : V) m k k' v :
  k' <> k -> slot zero (<[k := v]> m) k' = slot zero m k'.
Proof. intros H. unfold slot. now rewrite lookup_insert_ne. Qed.

(** ** The external functions *)

Ltac in_set := rewrite ?elem_of_union, ?elem_of_singleton; tauto.
Ltac sub_set := let x := fresh in let H := fresh in intros x H; revert H; in_set.

Ltac allowed :=
  match goal with
  | H : ready ?v _ |- isAllowed (handle ?v) _ _ = true =>
      let H' := fresh in
      pose proof (proj2 H) as H';
      apply isAllowed_true in H'; apply isAllowed_true; cbn;
      rewrite ?elem_of_union, ?elem_of_singleton; tauto
  end.

Lemma startGame_spec w sender :
  active_of w sender = false ->
  wp (startGame sender) w (fun _ w' => startGame_post sender w w').
Proof.
  intros Hact. unfold startGame.
  apply wp_bind, wp_read. rewrite Hact.
  apply wp_bind, wp_require; [reflexivity |].
  apply wp_bind, wp_randEuint8. intros r1 w1 Hg1 Hr1 Hc1.
  apply wp_bind, wp_rem8; [eauto using ready_admissible | lia |].
  intros r2 w2 Hg2 Hr2 Hc2.
  apply wp_bind, wp_add8; [eauto using ready_admissible |].
  intros r3 w3 Hg3 Hr3 Hc3.
  apply wp_bind, wp_write, wp_bind, wp_write, wp_bind, wp_read.
  cbn. rewrite slot_insert_eq.
  apply wp_bind, wp_allow; [allowed |].
  apply wp_bind, wp_allow; [allowed |].
  apply wp_emit. cbn.
  pose proof (grows_trans _ _ _ (grows_trans _ _ _ Hg1 Hg2) Hg3) as [? ? ? ? ? ? Hp ?].
  split; cbn; rewrite ?slot_insert_eq; try congruence.
  - rewrite Hc3, (plain_ready _ _ _ Hr2), Hc2, (plain_ready _ _ _ Hr1), Hc1.
    apply wrap_small. rewrite modulus_8.
    pose proof (Z.mod_pos_bound (byte_value (randomness (counter w))) 6).
    lia.
  - apply Hr3.
  - in_set.
  - in_set.
  - rewrite Hp. sub_set.
  - intros a Ha. rewrite slot_insert_ne by assumption.
    unfold dice_of. congruence.
  - intros a Ha. rewrite slot_insert_ne by assumption.
    unfold active_of. congruence.
Qed.

Lemma quotePoints_inr value p :
  quotePoints value = inr p ->
  value * POINTS_PER_ETH < Uint.max256 ∧
  p = Uint.wrap 64 (value * POINTS_PER_ETH / ether).
Proof.
  unfold quotePoints, checked_mul256.
  destruct (value * POINTS_PER_ETH <? Uint.max256) eqn:E; [| discriminate].
  intros [= <-]. apply Z.ltb_lt in E. auto.
Qed.

Lemma quotePoints_range value p :
  quotePoints value = inr p -> 0 <= p < Uint.max64.
Proof.
  intros [_ ->]%quotePoints_inr. rewrite <- modulus_64.
  apply wrap_range. lia.
Qed.

Lemma grows_points_of w w' a : grows w w' -> points_of w' a = points_of w a.
Proof. intros Hg. unfold points_of. now rewrite (grows_points _ _ Hg). Qed.

Lemma grows_dice_of w w' a : grows w w' -> dice_of w' a = dice_of w a.
Proof. intros Hg. unfold dice_of. now rewrite (grows_lastDice _ _ Hg). Qed.

Lemma grows_active_of w w' a : grows w w' -> active_of w' a = active_of w a.
Proof. intros Hg. unfold active_of. now rewrite (grows_hasActiveRound _ _ Hg). Qed.

Lemma buyPoints_spec w sender value p :
  quotePoints value = inr p -> 0 < p ->
  kept (points_of w sender) w ->
  wp (buyPoints sender value) w
     (fun _ w' => buyPoints_post sender value p w w').
Proof.
  intros Hq Hp Hk. unfold buyPoints. rewrite Hq.
  apply wp_bind, wp_ret, wp_bind, wp_require; [now apply Z.ltb_lt |].
  apply wp_bind. unfold FHE_asEuint64.
  apply wp_issue. intros r1 w1 Hg1 Hr1 Hc1 _.
  apply wp_bind, wp_read, wp_bind. unfold FHE_add64.
  apply wp_binary.
  { rewrite (grows_points_of _ _ _ Hg1).
    apply (admissible_mono _ w); [now apply grows_acl_le |].
    now apply kept_admissible. }
  { eauto using ready_admissible. }
  intros r2 w2 Hg2 Hr2 Hc2.
  apply wp_bind, wp_write, wp_bind, wp_read.
  cbn. rewrite slot_insert_eq.
  apply wp_bind, wp_allow; [allowed |].
  apply wp_bind, wp_allow; [allowed |].
  apply wp_emit. cbn.
  pose proof (grows_trans _ _ _ Hg1 Hg2) as Hg.
  pose proof (grows_persisted _ _ Hg) as Hpers.
  split; cbn; rewrite ?slot_insert_eq;
    try (now destruct Hg; congruence).
  - rewrite (plain_ready _ _ _ Hr2), Hc2, (plain_ready _ _ _ Hr1), Hc1.
    rewrite (grows_points_of _ _ _ Hg1).
    rewrite (wrap_small 64 p); [reflexivity |].
    rewrite modulus_64. eauto using quotePoints_range.
  - apply Hr2.
  - in_set.
  - in_set.
  - rewrite Hpers. sub_set.
  - intros a Ha. rewrite slot_insert_ne by assumption.
    apply (grows_points_of _ _ _ Hg).
Qed.

Lemma submitGuess_spec w sender h proof b :
  active_of w sender = true ->
  verifyInput sender h proof = Some b ->
  kept (dice_of w sender) w -> kept (points_of w sender) w ->
  wp (submitGuess sender h proof) w
     (fun _ w' => submitGuess_post sender (byte_value b) w w').
Proof.
  intros Hact Hv Hkd Hkp. unfold submitGuess.
  apply wp_bind, wp_read. rewrite Hact.
  apply wp_bind, wp_require; [reflexivity |].
  apply wp_bind, (wp_fromExternal _ _ _ b); [assumption |].
  intros guess w1 Hg1 Hguess Hcg.
  apply wp_bind, wp_read, wp_bind. unfold FHE_asEuint8.
  apply wp_issue. intros three w2 Hg2 Hthree Hc3 _.
  pose proof (grows_trans _ _ _ Hg1 Hg2) as Hw2.
  apply wp_bind. unfold FHE_gt8. apply wp_binary.
  { apply (admissible_mono _ w1); [now apply grows_acl_le |].
    rewrite (grows_dice_of _ _ _ Hg1).
    apply (admissible_mono _ w); [now apply grows_acl_le |].
    now apply kept_admissible. }
  { eauto using ready_admissible. }
  intros diceIsBig w3 Hg3 Hbig Hcbig.
  apply wp_bind, wp_issue. intros one w4 Hg4 Hone Hc1 _.
  apply wp_bind, wp_issue. intros two w5 Hg5 Htwo Hc2 _.
  apply wp_bind, wp_select.
  { apply ready_admissible, (ready_mono _ w3); [| assumption].
    apply grows_acl_le. eauto using grows_trans. }
  { apply ready_admissible, (ready_mono _ w4); [| assumption].
    now apply grows_acl_le. }
  { eauto using ready_admissible. }
  intros expected w6 Hg6 Hexp Hcexp.
  pose proof (grows_trans _ _ _ Hw2
               (grows_trans _ _ _ Hg3
                 (grows_trans _ _ _ Hg4 (grows_trans _ _ _ Hg5 Hg6)))) as Hw6.
  apply wp_bind. unfold FHE_eq8. apply wp_binary.
  { apply ready_admissible, (ready_mono _ w1); [| assumption].
    apply grows_acl_le. eauto using grows_trans. }
  { eauto using ready_admissible. }
  intros win w7 Hg7 Hwin Hcwin.
  apply wp_bind. unfold FHE_asEuint64.
  apply wp_issue. intros prize w8 Hg8 Hprize Hcp _.
  apply wp_bind, wp_issue. intros nothing w9 Hg9 Hnothing Hcn _.
  apply wp_bind, wp_select.
  { apply ready_admissible, (ready_mono _ w7); [| assumption].
    apply grows_acl_le. eauto using grows_trans. }
  { apply ready_admissible, (ready_mono _ w8); [| assumption].
    now apply grows_acl_le. }
  { eauto using ready_admissible. }
  intros reward w10 Hg10 Hreward Hcr.
  pose proof (grows_trans _ _ _ Hw6
               (grows_trans _ _ _ Hg7
                 (grows_trans _ _ _ Hg8 (grows_trans _ _ _ Hg9 Hg10)))) as Hw10.
  apply wp_bind, wp_read, wp_bind. unfold FHE_add64. apply wp_binary.
  { rewrite (grows_points_of _ _ _ Hw10).
    apply (admissible_mono _ w); [now apply grows_acl_le |].
    now apply kept_admissible. }
  { eauto using ready_admissible. }
  intros total w11 Hg11 Htotal Hct.
  pose proof (grows_trans _ _ _ Hw10 Hg11) as Hw11.
  apply wp_bind, wp_write, wp_bind, wp_write, wp_bind, wp_write,
    wp_bind, wp_write, wp_bind, wp_read.
  cbn. rewrite slot_insert_eq.
  assert (ready win w11) as Hwin11.
  { apply (ready_mono _ w7); [| assumption].
    apply grows_acl_le. eauto using grows_trans. }
  assert (ready reward w11) as Hreward11.
  { apply (ready_mono _ w10); [| assumption]. now apply grows_acl_le. }
  apply wp_bind, wp_allow; [allowed |].
  apply wp_bind, wp_allow; [allowed |].
  apply wp_bind, wp_read. cbn. rewrite slot_insert_eq.
  apply wp_bind, wp_allow; [allowed |].
  apply wp_bind, wp_allow; [allowed |].
  apply wp_bind, wp_read. cbn. rewrite slot_insert_eq.
  apply wp_bind, wp_allow; [allowed |].
  apply wp_bind, wp_allow; [allowed |].
  apply wp_emit. cbn.
  pose proof (grows_persisted _ _ Hw11) as Hpers.
  assert (plain false win
          = (byte_value b =? (if 3 <? plain 0 (dice_of w sender) then 1 else 2)))
    as Hwin_eq.
  { rewrite (plain_ready _ _ _ Hwin), Hcwin.
    rewrite (plain_ready _ _ _ Hguess), Hcg.
    rewrite (plain_ready _ _ _ Hexp), Hcexp.
    rewrite (plain_ready _ _ _ Hbig), Hcbig.
    rewrite (plain_ready _ _ _ Hthree), Hc3.
    rewrite (plain_ready _ _ _ Hone), Hc1, (plain_ready _ _ _ Htwo), Hc2.
    rewrite (grows_dice_of _ _ _ Hg1). reflexivity. }
  assert (plain 0 reward = (if plain false win then WIN_REWARD else 0))
    as Hreward_eq.
  { rewrite (plain_ready _ _ _ Hreward), Hcr.
    rewrite (plain_ready _ _ _ Hprize), Hcp.
    rewrite (plain_ready _ _ _ Hnothing), Hcn. reflexivity. }
  split; cbn; rewrite ?slot_insert_eq;
    try assumption; try (now destruct Hw11; congruence);
    try in_set; try apply Htotal; try apply Hwin; try apply Hreward.
  - rewrite (plain_ready _ _ _ Htotal), Hct.
    now rewrite (grows_points_of _ _ _ Hw10).
  - rewrite Hpers. sub_set.
  - intros a Ha. rewrite slot_insert_ne by assumption.
    apply (grows_points_of _ _ _ Hw11).
  - intros a Ha. rewrite slot_insert_ne by assumption.
    apply (grows_active_of _ _ _ Hw11).
Qed.

(** ** Reverts happen before any write *)

Lemma buyPoints_panic w sender value e :
  quotePoints value = inl e -> buyPoints sender value w = Reverted e w.
Proof. intros H. unfold buyPoints. now rewrite H. Qed.

Lemma buyPoints_zero w sender value :
  quotePoints value = inr 0 ->
  buyPoints sender value w = Reverted InsufficientPayment w.
Proof. intros H. unfold buyPoints. now rewrite H. Qed.

Lemma startGame_active w sender :
  active_of w sender = true ->
  startGame sender w = Reverted ActiveRoundExists w.
Proof. intros H. unfold startGame, bind, read. now rewrite H. Qed.

Lemma submitGuess_no_round w sender h proof :
  active_of w sender = false ->
  submitGuess sender h proof w = Reverted NoActiveRound w.
Proof. intros H. unfold submitGuess, bind, read. now rewrite H. Qed.

Lemma submitGuess_bad_proof w sender h proof :
  active_of w sender = true ->
  verifyInput sender h proof = None ->
  submitGuess sender h proof w = Reverted InvalidProof w.
Proof.
  intros H Hv. unfold submitGuess, bind, read, FHE_fromExternal.
  now rewrite H, Hv.
Qed.

(** ** Transactions *)

Lemma transact_done sender c w w' :
  dispatch sender c w = Done tt w' ->
  transact sender c w = (Succeeded, clear_transient w').
Proof. intros H. unfold transact. now rewrite H. Qed.

Lemma transact_reverted sender c w e w' :
  dispatch sender c w = Reverted e w' ->
  transact sender c w = (Failed e, w).
Proof. intros H. unfold transact. now rewrite H. Qed.

Lemma transact_failed_same sender c w e w' :
  transact sender c w = (Failed e, w') -> w' = w.
Proof.
  unfold transact. destruct (dispatch sender c w); now intros [= <-].
Qed.

Lemma transact_buyPoints_ok w sender value p :
  quotePoints value = inr p -> 0 < p ->
  kept (points_of w sender) w ->
  exists w', transact sender (BuyPoints value) w = (Succeeded, w')
             ∧ buyPoints_post sender value p w w'.
Proof.
  intros Hq Hp Hk.
  destruct (wp_elim _ _ _ (buyPoints_spec w sender value p Hq Hp Hk))
    as ([] & w' & Hrun & Hpost).
  exists (clear_transient w'). split.
  - now apply transact_done.
  - destruct Hpost. now split.
Qed.

Lemma transact_startGame_ok w sender :
  active_of w sender = false ->
  exists w', transact sender StartGame w = (Succeeded, w')
             ∧ startGame_post sender w w'.
Proof.
  intros Hact.
  destruct (wp_elim _ _ _ (startGame_spec w sender Hact))
    as ([] & w' & Hrun & Hpost).
  exists (clear_transient w'). split.
  - now apply transact_done.
  - destruct Hpost. now split.
Qed.

Lemma transact_submitGuess_ok w sender h proof b :
  active_of w sender = true ->
  verifyInput sender h proof = Some b ->
  kept (dice_of w sender) w -> kept (points_of w sender) w ->
  exists w', transact sender (SubmitGuess h proof) w = (Succeeded, w')
             ∧ submitGuess_post sender (byte_value b) w w'.
Proof.
  intros Hact Hv Hkd Hkp.
  destruct (wp_elim _ _ _ (submitGuess_spec w sender h proof b Hact Hv Hkd Hkp))
    as ([] & w' & Hrun & Hpost).
  exists (clear_transient w'). split.
  - now apply transact_done.
  - destruct Hpost. now split.
Qed.

(** What a committed transaction did, by the call it carried. *)
Lemma transact_succeeded w sender c w' :
  Inv w ->
  transact sender c w = (Succeeded, w') ->
  match c with
  | BuyPoints value =>
      exists p, quotePoints value = inr p ∧ 0 < p
                ∧ buyPoints_post sender value p w w'
  | StartGame =>
      active_of w sender = false ∧ startGame_post sender w w'
  | SubmitGuess h proof =>
      exists b, active_of w sender = true
                ∧ verifyInput sender h proof = Some b
                ∧ submitGuess_post sender (byte_value b) w w'
  end.
Proof.
  intros HI Ht. destruct c as [value | | h proof].
  - destruct (quotePoints value) as [e | p] eqn:Hq.
    { rewrite (transact_reverted sender (BuyPoints value) w _ w
                 (buyPoints_panic w sender value e Hq)) in Ht.
      discriminate. }
    pose proof (quotePoints_range _ _ Hq) as Hr.
    destruct (Z.eq_dec p 0) as [-> | Hne].
    { rewrite (transact_reverted sender (BuyPoints value) w _ w
                 (buyPoints_zero w sender value Hq)) in Ht.
      discriminate. }
    assert (0 < p) as Hp by lia.
    destruct (transact_buyPoints_ok w sender value p Hq Hp (inv_points_kept _ HI _))
      as (w'' & Ht' & Hpost).
    rewrite Ht in Ht'. injection Ht' as <-. eauto.
  - destruct (active_of w sender) eqn:Hact.
    { rewrite (transact_reverted sender StartGame w _ w
                 (startGame_active w sender Hact)) in Ht.
      discriminate. }
    destruct (transact_startGame_ok w sender Hact) as (w'' & Ht' & Hpost).
    rewrite Ht in Ht'. injection Ht' as <-. auto.
  - destruct (active_of w sender) eqn:Hact.
    2: { rewrite (transact_reverted sender (SubmitGuess h proof) w _ w
                    (submitGuess_no_round w sender h proof Hact)) in Ht.
         discriminate. }
    destruct (verifyInput sender h proof) as [b |] eqn:Hv.
    2: { rewrite (transact_reverted sender (SubmitGuess h proof) w _ w
                    (submitGuess_bad_proof w sender h proof Hact Hv)) in Ht.
         discriminate. }
    destruct (transact_submitGuess_ok w sender h proof b Hact Hv
                (inv_dice_kept _ HI _) (inv_points_kept _ HI _))
      as (w'' & Ht' & Hpost).
    rewrite Ht in Ht'. injection Ht' as <-. eauto.
Qed.

(** ** The storage invariant *)

Lemma kept_mono {A} (v : enc A) w w' :
  persisted w ⊆ persisted w' -> kept v w -> kept v w'.
Proof. intros Hsub Hk Hi. apply Hsub. auto. Qed.

Lemma slot_empty {V} (zero : V) k : slot zero ∅ k = zero.
Proof. unfold slot. now rewrite lookup_empty. Qed.

Lemma Inv_genesis : Inv genesis.
Proof.
  split; intros a; cbn; rewrite ?slot_empty; try discriminate.
  vm_compute. split; [discriminate | reflexivity].
Qed.

Lemma buyPoints_post_Inv sender value p w w' :
  Inv w -> buyPoints_post sender value p w w' -> Inv w'.
Proof.
  intros [Hkp Hkd Hrp Hrd Had] Hpost.
  pose proof (bp_persisted _ _ _ _ _ Hpost) as Hsub.
  assert (forall a, dice_of w' a = dice_of w a) as Hdice.
  { intros a. unfold dice_of. now rewrite (bp_lastDice _ _ _ _ _ Hpost). }
  assert (forall a, active_of w' a = active_of w a) as Hactive.
  { intros a. unfold active_of. now rewrite (bp_hasActiveRound _ _ _ _ _ Hpost). }
  split; intros a; rewrite ?Hdice, ?Hactive; eauto using kept_mono.
  - destruct (N.eq_dec a sender) as [-> | Hne].
    + intros _. apply (bp_this _ _ _ _ _ Hpost).
    + rewrite (bp_others _ _ _ _ _ Hpost) by assumption. eauto using kept_mono.
  - destruct (N.eq_dec a sender) as [-> | Hne].
    + rewrite (bp_points _ _ _ _ _ Hpost), <- modulus_64.
      apply wrap_range. lia.
    + rewrite (bp_others _ _ _ _ _ Hpost) by assumption. auto.
Qed.

Lemma startGame_post_Inv sender w w' :
  Inv w -> startGame_post sender w w' -> Inv w'.
Proof.
  intros [Hkp Hkd Hrp Hrd Had] Hpost.
  pose proof (st_persisted _ _ _ Hpost) as Hsub.
  assert (forall a, points_of w' a = points_of w a) as Hpoints.
  { intros a. unfold points_of. now rewrite (st_points _ _ _ Hpost). }
  split; intros a; rewrite ?Hpoints; eauto using kept_mono.
  - destruct (N.eq_dec a sender) as [-> | Hne].
    + intros _. apply (st_this _ _ _ Hpost).
    + rewrite (st_others_dice _ _ _ Hpost) by assumption. eauto using kept_mono.
  - destruct (N.eq_dec a sender) as [-> | Hne].
    + intros _. rewrite (st_dice _ _ _ Hpost).
      pose proof (Z.mod_pos_bound (byte_value (randomness (counter w))) 6).
      lia.
    + rewrite (st_others_dice _ _ _ Hpost) by assumption. auto.
  - destruct (N.eq_dec a sender) as [-> | Hne].
    + intros _. apply (st_init _ _ _ Hpost).
    + rewrite (st_others_dice _ _ _ Hpost), (st_others_active _ _ _ Hpost)
        by assumption.
      auto.
Qed.

Lemma submitGuess_post_Inv sender g w w' :
  Inv w -> submitGuess_post sender g w w' -> Inv w'.
Proof.
  intros [Hkp Hkd Hrp Hrd Had] Hpost.
  pose proof (su_persisted _ _ _ _ Hpost) as Hsub.
  assert (forall a, dice_of w' a = dice_of w a) as Hdice.
  { intros a. unfold dice_of. now rewrite (su_lastDice _ _ _ _ Hpost). }
  split; intros a; rewrite ?Hdice; eauto using kept_mono.
  - destruct (N.eq_dec a sender) as [-> | Hne].
    + intros _. apply (su_points_this _ _ _ _ Hpost).
    + rewrite (su_others_points _ _ _ _ Hpost) by assumption.
      eauto using kept_mono.
  - destruct (N.eq_dec a sender) as [-> | Hne].
    + rewrite (su_points _ _ _ _ Hpost), <- modulus_64.
      apply wrap_range. lia.
    + rewrite (su_others_points _ _ _ _ Hpost) by assumption. auto.
  - destruct (N.eq_dec a sender) as [-> | Hne].
    + rewrite (su_active _ _ _ _ Hpost). discriminate.
    + rewrite (su_others_active _ _ _ _ Hpost) by assumption. auto.
Qed.

Lemma transact_Inv w sender c : Inv w -> Inv (snd (transact sender c w)).
Proof.
  intros HI. destruct (transact sender c w) as [[| e] w'] eqn:Ht; cbn.
  - pose proof (transact_succeeded _ _ _ _ HI Ht) as Hpost.
    destruct c as [value | | h proof].
    + destruct Hpost as (p & _ & _ & Hpost). eauto using buyPoints_post_Inv.
    + destruct Hpost as (_ & Hpost). eauto using startGame_post_Inv.
    + destruct Hpost as (b & _ & _ & Hpost). eauto using submitGuess_post_Inv.
  - now rewrite (transact_failed_same _ _ _ _ _ Ht).
Qed.

Lemma reachable_Inv w : reachable w -> Inv w.
Proof.
  induction 1 as [| w sender c _ IH _]; [apply Inv_genesis |].
  now apply transact_Inv.
Qed.

Lemma run_reachable txs w :
  reachable w -> forallb (fun tx => well_formed (snd tx)) txs = true ->
  reachable (run txs w).
Proof.
  revert w. induction txs as [| [sender c] rest IH]; intros w Hw Hall; cbn.
  - exact Hw.
  - cbn in Hall. apply andb_true_iff in Hall as [Hc Hrest].
    apply IH; [| exact Hrest]. now constructor.
Qed.

(** ** The quote *)

Lemma quotePoints_ok value :
  value * POINTS_PER_ETH < Uint.max256 ->
  quotePoints value = inr (Uint.wrap 64 (value * POINTS_PER_ETH / ether)).
Proof.
  intros H. unfold quotePoints, checked_mul256.
  apply Z.ltb_lt in H. now rewrite H.
Qed.

Lemma quotePoints_overflow value :
  Uint.max256 <= value * POINTS_PER_ETH -> quotePoints value = inl (Panic 17).
Proof.
  intros H. unfold quotePoints, checked_mul256.
  apply Z.ltb_ge in H. now rewrite H.
Qed.

Lemma div_double a e :
  0 < e -> 0 <= a ->
  2 * a / e = 2 * (a / e) + (if e <=? 2 * (a mod e) then 1 else 0).
Proof.
  intros He Ha.
  pose proof (Z.div_mod a e ltac:(lia)) as Hdm.
  pose proof (Z.mod_pos_bound a e He) as Hr.
  destruct (e <=? 2 * (a mod e)) eqn:E.
  - apply Z.leb_le in E. symmetry.
    apply (Z.div_unique _ _ _ (2 * (a mod e) - e)); lia.
  - apply Z.leb_gt in E. symmetry.
    apply (Z.div_unique _ _ _ (2 * (a mod e))); lia.
Qed.

(** C6, amended: the quote is the floor of [x * 100000 / 1 ether] as long
    as nothing overflows; doubling the amount doubles the quote and adds
    one when the remainder of [x * 100000] is at least half an ether, so
    the quote is exactly linear on amounts whose product is a multiple of
    one ether; one ether buys 100000 points. *)
Theorem quotePoints_doubling x :
  0 <= x ->
  2 * x * POINTS_PER_ETH < Uint.max256 ->
  2 * x * POINTS_PER_ETH / ether < Uint.max64 ->
  quotePoints x = inr (x * POINTS_PER_ETH / ether)
  ∧ quotePoints (2 * x)
    = inr (2 * (x * POINTS_PER_ETH / ether)
           + (if ether <=? 2 * ((x * POINTS_PER_ETH) mod ether) then 1 else 0))
  ∧ ((x * POINTS_PER_ETH) mod ether = 0 ->
     quotePoints (2 * x) = inr (2 * (x * POINTS_PER_ETH / ether)))
  ∧ quotePoints ether = inr 100000.
Proof.
  intros Hx Hmul Hq.
  assert (0 <= x * POINTS_PER_ETH) as Ha by (unfold POINTS_PER_ETH; lia).
  assert (0 < ether) as He by reflexivity.
  pose proof (div_double (x * POINTS_PER_ETH) ether He Ha) as Hd.
  replace (2 * (x * POINTS_PER_ETH)) with (2 * x * POINTS_PER_ETH) in Hd by ring.
  pose proof (Z.div_pos _ _ Ha He) as Hq0.
  assert (quotePoints (2 * x)
          = inr (2 * (x * POINTS_PER_ETH / ether)
                 + (if ether <=? 2 * ((x * POINTS_PER_ETH) mod ether)
                    then 1 else 0))) as H2.
  { rewrite quotePoints_ok by assumption. f_equal.
    rewrite wrap_small; [exact Hd |].
    rewrite modulus_64. split; [| assumption].
    apply Z.div_pos; lia. }
  repeat split.
  - rewrite quotePoints_ok by lia. f_equal.
    apply wrap_small. rewrite modulus_64. revert Hd.
    destruct (ether <=? 2 * (x * POINTS_PER_ETH mod ether)); lia.
  - exact H2.
  - intros Hr. rewrite H2, Hr.
    change (ether <=? 2 * 0) with false. cbv iota. now rewrite Z.add_0_r.
Qed.

(** C10: the quote is the quotient cut to 64 bits, a quotient of [2 ^ 64]
    or more does not survive the cut, and a product that does not fit 256
    bits makes the call fail. *)
Theorem quotePoints_truncates :
  (forall v, 0 <= v -> v * POINTS_PER_ETH < Uint.max256 ->
     quotePoints v = inr ((v * POINTS_PER_ETH / ether) mod 2 ^ 64))
  ∧ (exists v, 0 <= v < Uint.max256
       ∧ 2 ^ 64 <= v * POINTS_PER_ETH / ether
       ∧ quotePoints v = inr ((v * POINTS_PER_ETH / ether) mod 2 ^ 64)
       ∧ quotePoints v <> inr (v * POINTS_PER_ETH / ether))
  ∧ (forall v, 0 <= v < Uint.max256 ->
       2 ^ 256 <= v * POINTS_PER_ETH ->
       quotePoints v = inl (Panic 17)).
Proof.
  split; [| split].
  - intros v _ Hv. now apply quotePoints_ok.
  - exists (2 ^ 64 * 10 ^ 13). vm_compute. repeat split; congruence.
  - intros v _ Hv. now apply quotePoints_overflow.
Qed.

(** ** Rounds *)

Lemma startGame_failure_iff w sender :
  fst (transact sender StartGame w) = Failed ActiveRoundExists
  <-> active_of w sender = true.
Proof.
  destruct (active_of w sender) eqn:Hact.
  - rewrite (transact_reverted sender StartGame w _ w
               (startGame_active w sender Hact)).
    tauto.
  - destruct (transact_startGame_ok w sender Hact) as (w' & -> & _).
    cbn. split; discriminate.
Qed.

(** A transaction that is not a [submitGuess] of [player] leaves an open
    round of [player] open. *)
Lemma active_stays w sender c player :
  Inv w -> active_of w player = true ->
  match c with
  | SubmitGuess _ _ => sender <> player
  | _ => True
  end ->
  active_of (snd (transact sender c w)) player = true.
Proof.
  intros HI Hact Hc.
  destruct (transact sender c w) as [[| e] w'] eqn:Ht; cbn.
  2: { now rewrite (transact_failed_same _ _ _ _ _ Ht). }
  pose proof (transact_succeeded _ _ _ _ HI Ht) as Hpost.
  destruct c as [value | | h proof].
  - destruct Hpost as (p & _ & _ & Hpost).
    unfold active_of. now rewrite (bp_hasActiveRound _ _ _ _ _ Hpost).
  - destruct Hpost as (Hfree & Hpost).
    destruct (N.eq_dec player sender) as [-> | Hne]; [congruence |].
    now rewrite (st_others_active _ _ _ Hpost).
  - destruct Hpost as (b & _ & _ & Hpost).
    rewrite (su_others_active _ _ _ _ Hpost); auto.
Qed.

Lemma active_stays_run txs w player :
  Inv w -> active_of w player = true -> no_submit_by player txs = true ->
  active_of (run txs w) player = true.
Proof.
  revert w. induction txs as [| [sender c] rest IH]; intros w HI Hact Hno; cbn.
  - exact Hact.
  - cbn in Hno. apply andb_true_iff in Hno as [Hc Hrest].
    apply IH; [now apply transact_Inv | | exact Hrest].
    apply active_stays; [assumption .. |].
    destruct c; [exact I | exact I |].
    apply negb_true_iff, N.eqb_neq in Hc. exact Hc.
Qed.

(** Rounds opened and not yet resolved are exactly the rounds the flag
    records. *)
Lemma rounds_balance txs w player :
  Inv w ->
  (opened player txs w + active_rounds w player
   = resolved player txs w + active_rounds (run txs w) player)%nat.
Proof.
  revert w. induction txs as [| [sender c] rest IH]; intros w HI; cbn.
  - reflexivity.
  - specialize (IH _ (transact_Inv w sender c HI)).
    pose proof (transact_succeeded w sender c) as Hs.
    pose proof (transact_failed_same sender c w) as Hf.
    destruct c as [value | | h proof];
      destruct (transact sender _ w) as [[| e] w'];
      cbn in *;
      try (pose proof (Hf e w' eq_refl); subst w'; lia);
      specialize (Hs w' HI eq_refl).
    + destruct Hs as (p & _ & _ & Hpost).
      assert (active_rounds w' player = active_rounds w player) as <-; [| lia].
      unfold active_rounds, active_of.
      now rewrite (bp_hasActiveRound _ _ _ _ _ Hpost).
    + destruct Hs as (Hfree & Hpost).
      destruct (N.eqb_spec sender player) as [-> | Hne].
      * unfold active_rounds in *.
        rewrite (st_active _ _ _ Hpost) in IH. rewrite Hfree. lia.
      * assert (active_rounds w' player = active_rounds w player) as <-; [| lia].
        unfold active_rounds. rewrite (st_others_active _ _ _ Hpost); auto.
    + destruct Hs as (b & Hact & _ & Hpost).
      destruct (N.eqb_spec sender player) as [-> | Hne].
      * unfold active_rounds in *.
        rewrite (su_active _ _ _ _ Hpost) in IH. rewrite Hact. lia.
      * assert (active_rounds w' player = active_rounds w player) as <-; [| lia].
        unfold active_rounds. rewrite (su_others_active _ _ _ _ Hpost); auto.
Qed.

(** C3: [startGame] fails with "Active round exists" exactly when the
    caller's round flag is set, and succeeds otherwise; along every run
    from the deployment a player has at most one round opened and not
    yet resolved; and after a round is opened, a second [startGame] of
    the same player fails as long as that player has not sent a
    [submitGuess]. *)
Theorem startGame_one_round :
  (forall w sender,
     fst (transact sender StartGame w) = Failed ActiveRoundExists
     <-> hasActiveRound w sender = true)
  ∧ (forall w sender,
       hasActiveRound w sender = false ->
       fst (transact sender StartGame w) = Succeeded)
  ∧ (forall txs player,
       (opened player txs genesis
        = resolved player txs genesis
          + active_rounds (run txs genesis) player)%nat
       ∧ (opened player txs genesis - resolved player txs genesis <= 1)%nat)
  ∧ (forall w sender txs,
       reachable w ->
       fst (transact sender StartGame w) = Succeeded ->
       no_submit_by sender txs = true ->
       fst (transact sender StartGame
              (run txs (snd (transact sender StartGame w))))
       = Failed ActiveRoundExists).
Proof.
  split; [| split; [| split]].
  - exact startGame_failure_iff.
  - intros w sender Hact.
    now destruct (transact_startGame_ok w sender Hact) as (w' & -> & _).
  - intros txs player.
    pose proof (rounds_balance txs genesis player Inv_genesis) as H.
    change (active_rounds genesis player) with 0%nat in H.
    split; [lia |].
    unfold active_rounds in *. destruct (active_of _ _); lia.
  - intros w sender txs Hw Hok Hno.
    apply startGame_failure_iff.
    apply active_stays_run; [| | exact Hno].
    + apply transact_Inv, reachable_Inv, Hw.
    + destruct (active_of w sender) eqn:Hact.
      * rewrite (transact_reverted sender StartGame w _ w
                   (startGame_active w sender Hact)) in Hok.
        discriminate.
      * destruct (transact_startGame_ok w sender Hact) as (w' & -> & Hpost).
        apply (st_active _ _ _ Hpost).
Qed.

(** C4: a [startGame] that commits has drawn one byte, a value in
    [0, 255]; the dice it stores for the caller is that byte modulo 6,
    plus 1, hence one of 1, ..., 6, whatever the byte; and the caller's
    round is open. *)
Theorem startGame_dice w sender w' :
  transact sender StartGame w = (Succeeded, w') ->
  0 <= byte_value (randomness (counter w)) <= 255
  ∧ plain 0 (dice_of w' sender)
    = byte_value (randomness (counter w)) mod 6 + 1
  ∧ 1 <= plain 0 (dice_of w' sender) <= 6
  ∧ hasActiveRound w' sender = true.
Proof.
  intros Ht. destruct (active_of w sender) eqn:Hact.
  { rewrite (transact_reverted sender StartGame w _ w
               (startGame_active w sender Hact)) in Ht.
    discriminate. }
  destruct (transact_startGame_ok w sender Hact) as (w'' & Ht' & Hpost).
  rewrite Ht in Ht'. injection Ht' as <-.
  pose proof (byte_value_range (randomness (counter w))) as Hb.
  pose proof (Z.mod_pos_bound (byte_value (randomness (counter w))) 6) as Hm.
  unfold plain. rewrite (st_init _ _ _ Hpost), (st_dice _ _ _ Hpost).
  repeat split; try lia. apply (st_active _ _ _ Hpost).
Qed.

(** C2: [submitGuess] fails with "No active round" when the caller has no
    open round, and with an invalid-proof revert when the round is open
    and the input proof is rejected; a rejected proof makes the call fail
    in either case; and a failed call leaves the whole world, with
    balances, round flags, dice and allowances, as it was.  In both named
    failures nothing had been written when the call reverted. *)
Theorem submitGuess_failures w sender h proof :
  (hasActiveRound w sender = false ->
   transact sender (SubmitGuess h proof) w = (Failed NoActiveRound, w))
  ∧ (hasActiveRound w sender = true ->
     verifyInput sender h proof = None ->
     transact sender (SubmitGuess h proof) w = (Failed InvalidProof, w))
  ∧ (verifyInput sender h proof = None ->
     exists e, fst (transact sender (SubmitGuess h proof) w) = Failed e
               ∧ (e = NoActiveRound ∨ e = InvalidProof))
  ∧ (forall e w',
       transact sender (SubmitGuess h proof) w = (Failed e, w') ->
       w' = w
       ∧ points_of w' sender = points_of w sender
       ∧ hasActiveRound w' sender = hasActiveRound w sender
       ∧ dice_of w' sender = dice_of w sender
       ∧ persisted w' = persisted w)
  ∧ (hasActiveRound w sender = false ->
     submitGuess sender h proof w = Reverted NoActiveRound w)
  ∧ (hasActiveRound w sender = true ->
     verifyInput sender h proof = None ->
     submitGuess sender h proof w = Reverted InvalidProof w).
Proof.
  split; [| split; [| split; [| split; [| split]]]].
  - intros Hact.
    apply (transact_reverted sender (SubmitGuess h proof) w _ w).
    now apply submitGuess_no_round.
  - intros Hact Hv.
    apply (transact_reverted sender (SubmitGuess h proof) w _ w).
    now apply submitGuess_bad_proof.
  - intros Hv. destruct (active_of w sender) eqn:Hact.
    + exists InvalidProof. split; [| now right].
      now rewrite (transact_reverted sender (SubmitGuess h proof) w _ w
                     (submitGuess_bad_proof w sender h proof Hact Hv)).
    + exists NoActiveRound. split; [| now left].
      now rewrite (transact_reverted sender (SubmitGuess h proof) w _ w
                     (submitGuess_no_round w sender h proof Hact)).
  - intros e w' Ht. apply transact_failed_same in Ht. now subst.
  - apply submitGuess_no_round.
  - apply submitGuess_bad_proof.
Qed.

(** ** Resolving a round *)

Lemma submitGuess_commits w sender h proof b :
  reachable w -> active_of w sender = true ->
  verifyInput sender h proof = Some b ->
  exists w', transact sender (SubmitGuess h proof) w = (Succeeded, w')
             ∧ submitGuess_post sender (byte_value b) w w'.
Proof.
  intros Hw Hact Hv. pose proof (reachable_Inv w Hw) as HI.
  apply transact_submitGuess_ok; try assumption.
  - apply (inv_dice_kept _ HI).
  - apply (inv_points_kept _ HI).
Qed.

Lemma wrap_add_small a b :
  0 <= a -> 0 <= b -> a + b < 2 ^ 64 -> Uint.wrap 64 (a + b) = a + b.
Proof. intros Ha Hb Hlt. apply wrap_small. unfold Uint.modulus. lia. Qed.

(** C1, amended: for a reachable world in which the caller has an open
    round, a [submitGuess] with an accepted proof commits; it wins when
    the guess is 1 for a dice above 3 and 2 otherwise; the reward is
    10000 on a win and 0 otherwise; the balance becomes the old balance
    plus the reward modulo [2 ^ 64], which is the old balance plus the
    reward whenever that sum is below [2 ^ 64], and the old balance on a
    wrong guess; and the round is closed. *)
Theorem submitGuess_resolves w sender h proof b :
  reachable w ->
  hasActiveRound w sender = true ->
  verifyInput sender h proof = Some b ->
  exists w',
    transact sender (SubmitGuess h proof) w = (Succeeded, w')
    ∧ plain false (win_of w' sender)
      = (byte_value b =? (if 3 <? plain 0 (dice_of w sender) then 1 else 2))
    ∧ plain 0 (reward_of w' sender)
      = (if plain false (win_of w' sender) then 10000 else 0)
    ∧ plain 0 (points_of w' sender)
      = (plain 0 (points_of w sender) + plain 0 (reward_of w' sender))
          mod 2 ^ 64
    ∧ (plain 0 (points_of w sender) + plain 0 (reward_of w' sender) < 2 ^ 64 ->
       plain 0 (points_of w' sender)
       = plain 0 (points_of w sender) + plain 0 (reward_of w' sender))
    ∧ (plain false (win_of w' sender) = false ->
       plain 0 (points_of w' sender) = plain 0 (points_of w sender))
    ∧ hasActiveRound w' sender = false.
Proof.
  intros Hw Hact Hv.
  destruct (submitGuess_commits w sender h proof b Hw Hact Hv)
    as (w' & Ht & Hpost).
  pose proof (inv_points_range _ (reachable_Inv w Hw) sender) as Hr.
  pose proof (su_reward _ _ _ _ Hpost) as Hrew.
  pose proof (su_points _ _ _ _ Hpost) as Hpts.
  exists w'. repeat split.
  - exact Ht.
  - apply (su_win _ _ _ _ Hpost).
  - exact Hrew.
  - exact Hpts.
  - intros Hlt. rewrite Hpts. apply wrap_add_small; [lia | | exact Hlt].
    rewrite Hrew. unfold WIN_REWARD. destruct (plain false _); lia.
  - intros Hlost. rewrite Hpts, Hrew, Hlost, Z.add_0_r.
    apply wrap_small. now rewrite modulus_64.
  - apply (su_active _ _ _ _ Hpost).
Qed.

(** C9: [startGame] does not look at the balance.  In a reachable world
    any caller without an open round opens one, whatever the balance;
    the balance is not touched; and a correct guess in that round is
    paid 10000, so that a caller whose balance slot was never written
    ends with 10000 points. *)
Theorem startGame_needs_no_points w sender :
  reachable w ->
  hasActiveRound w sender = false ->
  exists w1,
    transact sender StartGame w = (Succeeded, w1)
    ∧ hasActiveRound w1 sender = true
    ∧ points_of w1 sender = points_of w sender
    ∧ forall h proof b,
        verifyInput sender h proof = Some b ->
        byte_value b = (if 3 <? plain 0 (dice_of w1 sender) then 1 else 2) ->
        exists w2,
          transact sender (SubmitGuess h proof) w1 = (Succeeded, w2)
          ∧ plain 0 (reward_of w2 sender) = 10000
          ∧ (points_of w sender = uninitialized 0 ->
             plain 0 (points_of w2 sender) = 10000
             ∧ 0 < plain 0 (points_of w2 sender)).
Proof.
  intros Hw Hact.
  destruct (transact_startGame_ok w sender Hact) as (w1 & Ht1 & Hpost1).
  assert (reachable w1) as Hw1.
  { replace w1 with (snd (transact sender StartGame w)) by now rewrite Ht1.
    now constructor. }
  assert (points_of w1 sender = points_of w sender) as Hsame.
  { unfold points_of. now rewrite (st_points _ _ _ Hpost1). }
  exists w1. repeat split; try assumption.
  { apply (st_active _ _ _ Hpost1). }
  intros h proof b Hv Hguess.
  destruct (submitGuess_commits w1 sender h proof b Hw1
              (st_active _ _ _ Hpost1) Hv) as (w2 & Ht2 & Hpost2).
  assert (plain false (win_of w2 sender) = true) as Hwon.
  { rewrite (su_win _ _ _ _ Hpost2). now apply Z.eqb_eq. }
  assert (plain 0 (reward_of w2 sender) = 10000) as Hrew.
  { now rewrite (su_reward _ _ _ _ Hpost2), Hwon. }
  exists w2. split; [exact Ht2 |]. split; [exact Hrew |].
  intros Hfresh.
  assert (plain 0 (points_of w2 sender) = 10000) as Hpts.
  { now rewrite (su_points _ _ _ _ Hpost2), Hrew, Hsame, Hfresh. }
  split; [exact Hpts |]. rewrite Hpts. reflexivity.
Qed.

(** ** Buying points *)

Lemma buyPoints_commits w sender value p :
  reachable w -> quotePoints value = inr p -> 0 < p ->
  exists w', transact sender (BuyPoints value) w = (Succeeded, w')
             ∧ buyPoints_post sender value p w w'.
Proof.
  intros Hw Hq Hp. apply transact_buyPoints_ok; try assumption.
  apply (inv_points_kept _ (reachable_Inv w Hw)).
Qed.

(** C5, amended: in a reachable world [buyPoints] commits exactly when
    the quote of the payment is positive; a quote of 0 makes it fail
    with "Insufficient ETH" and leaves the world as it was; a committed
    purchase sets the caller's balance to the old balance plus the quote
    modulo [2 ^ 64], which is the old balance plus the quote whenever
    that sum is below [2 ^ 64]. *)
Theorem buyPoints_adds w sender value :
  reachable w ->
  (fst (transact sender (BuyPoints value) w) = Succeeded
   <-> exists p, quotePoints value = inr p ∧ 0 < p)
  ∧ (quotePoints value = inr 0 ->
     transact sender (BuyPoints value) w = (Failed InsufficientPayment, w))
  ∧ (forall p w',
       quotePoints value = inr p ->
       transact sender (BuyPoints value) w = (Succeeded, w') ->
       plain 0 (points_of w' sender)
       = (plain 0 (points_of w sender) + p) mod 2 ^ 64
       ∧ (plain 0 (points_of w sender) + p < 2 ^ 64 ->
          plain 0 (points_of w' sender) = plain 0 (points_of w sender) + p)).
Proof.
  intros Hw. pose proof (reachable_Inv w Hw) as HI.
  split; [| split].
  - split.
    + intros Hok.
      destruct (transact sender (BuyPoints value) w) as [r w'] eqn:Ht.
      cbn in Hok. subst r.
      destruct (transact_succeeded _ _ _ _ HI Ht) as (p & Hq & Hp & _).
      eauto.
    + intros (p & Hq & Hp).
      now destruct (buyPoints_commits w sender value p Hw Hq Hp) as (w' & -> & _).
  - intros Hq.
    apply (transact_reverted sender (BuyPoints value) w _ w).
    now apply buyPoints_zero.
  - intros p w' Hq Ht.
    destruct (transact_succeeded _ _ _ _ HI Ht) as (p' & Hq' & Hp & Hpost).
    assert (p' = p) as -> by congruence.
    pose proof (inv_points_range _ HI sender) as Hr.
    pose proof (bp_points _ _ _ _ _ Hpost) as Hpts.
    split; [exact Hpts |].
    intros Hlt. rewrite Hpts. apply wrap_add_small; lia.
Qed.

(** ** More on the quote *)

(** One point costs [10 ^ 13] wei. *)
Lemma quotePoints_div value :
  0 <= value -> value < 2 ^ 64 * 10 ^ 13 ->
  quotePoints value = inr (value / 10 ^ 13)
  ∧ 0 <= value / 10 ^ 13 < 2 ^ 64.
Proof.
  intros H0 Hlt.
  assert (0 <= value / 10 ^ 13 < 2 ^ 64) as Hr.
  { split; [apply Z.div_pos; lia |]. apply Z.div_lt_upper_bound; lia. }
  split; [| exact Hr].
  rewrite quotePoints_ok.
  - f_equal. unfold POINTS_PER_ETH.
    change ether with (10 ^ 13 * 100000).
    rewrite Z.div_mul_cancel_r by lia.
    apply wrap_small. exact Hr.
  - unfold POINTS_PER_ETH.
    change Uint.max256 with (2 ^ 256). lia.
Qed.

(** ** What a call can touch *)

Lemma touches_only_trans sender w1 w2 w3 :
  touches_only sender w1 w2 -> touches_only sender w2 w3 ->
  touches_only sender w1 w3.
Proof.
  intros [Hp1 Hd1 Hw1 Hr1 Ha1 Hs1 (n1 & He1 & Hf1)]
         [Hp2 Hd2 Hw2 Hr2 Ha2 Hs2 (n2 & He2 & Hf2)].
  split.
  - intros a Ha. now rewrite Hp2, Hp1.
  - intros a Ha. now rewrite Hd2, Hd1.
  - intros a Ha. now rewrite Hw2, Hw1.
  - intros a Ha. now rewrite Hr2, Hr1.
  - intros a Ha. now rewrite Ha2, Ha1.
  - etransitivity; eassumption.
  - exists (n1 ++ n2). split.
    + now rewrite He2, He1, app_assoc.
    + apply Forall_app. auto.
Qed.

(** A step that leaves the storage and the log alone. *)
Lemma touches_only_host sender w w' :
  _points w' = _points w -> _lastDice w' = _lastDice w ->
  _lastWin w' = _lastWin w -> _lastReward w' = _lastReward w ->
  _hasActiveRound w' = _hasActiveRound w -> events w' = events w ->
  persisted w ⊆ persisted w' ->
  touches_only sender w w'.
Proof.
  intros Hp Hd Hw Hr Ha He Hs. split.
  - intros a _. unfold points_of. congruence.
  - intros a _. unfold dice_of. congruence.
  - intros a _. unfold win_of. congruence.
  - intros a _. unfold reward_of. congruence.
  - intros a _. unfold active_of. congruence.
  - exact Hs.
  - exists []. split; [now rewrite app_nil_r | constructor].
Qed.

Lemma touches_only_refl sender w : touches_only sender w w.
Proof. now apply touches_only_host. Qed.

Lemma keeps_ret sender {A} (a : A) : keeps (touches_only sender) (ret a).
Proof. intros w a' w' [= _ <-]. apply touches_only_refl. Qed.

Lemma keeps_bind sender {A B} (m : M A) (k : A -> M B) :
  keeps (touches_only sender) m ->
  (forall a, keeps (touches_only sender) (k a)) ->
  keeps (touches_only sender) (bind m k).
Proof.
  intros Hm Hk w b w' Hrun. unfold bind in Hrun.
  destruct (m w) as [a w1 | e w1] eqn:Hmw; [| discriminate].
  eapply touches_only_trans; [eapply Hm | eapply Hk]; eauto.
Qed.

Lemma keeps_read sender {A} (f : World -> A) : keeps (touches_only sender) (read f).
Proof. intros w a' w' [= _ <-]. apply touches_only_refl. Qed.

Lemma keeps_require sender cond e : keeps (touches_only sender) (require cond e).
Proof.
  intros w a' w'. destruct cond; cbn; [| discriminate].
  intros [= _ <-]. apply touches_only_refl.
Qed.

Lemma keeps_lift sender {A} (r : Revert + A) : keeps (touches_only sender) (lift r).
Proof.
  intros w a' w'. destruct r; cbn; [discriminate |].
  intros [= _ <-]. apply touches_only_refl.
Qed.

Lemma keeps_write sender (f : World -> World) :
  (forall w, touches_only sender w (f w)) ->
  keeps (touches_only sender) (write f).
Proof. intros H w a' w' [= _ <-]. apply H. Qed.

Lemma keeps_issue sender {A} (v : A) : keeps (touches_only sender) (issue v).
Proof.
  intros w a' w' [= _ <-]. now apply touches_only_host.
Qed.

Lemma keeps_operand sender {A} (zero : A) (v : enc A) :
  keeps (touches_only sender) (operand zero v).
Proof.
  unfold operand. apply keeps_bind.
  - destruct (isInitialized v); [apply keeps_ret | apply keeps_issue].
  - intros v'. apply keeps_bind; [apply keeps_read |]. intros ok.
    apply keeps_bind; [apply keeps_require |]. intros _. apply keeps_ret.
Qed.

Lemma keeps_binary sender {A B} (zero : A) (f : A -> A -> B) a b :
  keeps (touches_only sender) (binary zero f a b).
Proof.
  unfold binary. apply keeps_bind; [apply keeps_operand |]. intros a'.
  apply keeps_bind; [apply keeps_operand |]. intros b'. apply keeps_issue.
Qed.

Lemma keeps_select sender control a b :
  keeps (touches_only sender) (FHE_select control a b).
Proof.
  unfold FHE_select. apply keeps_bind; [apply keeps_operand |]. intros c'.
  apply keeps_bind; [apply keeps_operand |]. intros a'.
  apply keeps_bind; [apply keeps_operand |]. intros b'. apply keeps_issue.
Qed.

Lemma keeps_randEuint8 sender : keeps (touches_only sender) FHE_randEuint8.
Proof.
  intros w a' w' H. unfold FHE_randEuint8 in H.
  exact (keeps_issue sender _ w a' w' H).
Qed.

Lemma keeps_rem8 sender a b : keeps (touches_only sender) (FHE_rem8 a b).
Proof.
  unfold FHE_rem8. apply keeps_bind; [apply keeps_operand |]. intros a'.
  apply keeps_bind; [apply keeps_require |]. intros _. apply keeps_issue.
Qed.

Lemma keeps_add8 sender a b : keeps (touches_only sender) (FHE_add8 a b).
Proof.
  unfold FHE_add8. apply keeps_bind; [apply keeps_operand |]. intros a'.
  apply keeps_issue.
Qed.

Lemma keeps_fromExternal sender user h proof :
  keeps (touches_only sender) (FHE_fromExternal user h proof).
Proof.
  unfold FHE_fromExternal. destruct (verifyInput user h proof).
  - apply keeps_bind; [| intros _; apply keeps_ret].
    apply keeps_write. intros w. now apply touches_only_host.
  - intros w a' w'. discriminate.
Qed.

Lemma keeps_allow sender {A} (v : enc A) account :
  keeps (touches_only sender) (FHE_allow v account).
Proof.
  unfold FHE_allow. apply keeps_bind; [apply keeps_read |]. intros ok.
  apply keeps_bind; [apply keeps_require |]. intros _.
  apply keeps_write. intros w. apply touches_only_host; try reflexivity.
  cbn. intros x Hx. apply elem_of_union. now right.
Qed.

Lemma keeps_emit sender e :
  event_player e = sender -> keeps (touches_only sender) (emit e).
Proof.
  intros He. apply keeps_write. intros w.
  split; auto. exists [e]. split; [reflexivity |]. now repeat constructor.
Qed.

Lemma keeps_set_points sender v :
  keeps (touches_only sender) (write (set_points sender v)).
Proof.
  apply keeps_write. intros w. split; auto.
  - intros a Ha. cbn. now apply slot_insert_ne.
  - exists []. split; [cbn; now rewrite app_nil_r | constructor].
Qed.

Lemma keeps_set_lastDice sender v :
  keeps (touches_only sender) (write (set_lastDice sender v)).
Proof.
  apply keeps_write. intros w. split; auto.
  - intros a Ha. cbn. now apply slot_insert_ne.
  - exists []. split; [cbn; now rewrite app_nil_r | constructor].
Qed.

Lemma keeps_set_lastWin sender v :
  keeps (touches_only sender) (write (set_lastWin sender v)).
Proof.
  apply keeps_write. intros w. split; auto.
  - intros a Ha. cbn. now apply slot_insert_ne.
  - exists []. split; [cbn; now rewrite app_nil_r | constructor].
Qed.

Lemma keeps_set_lastReward sender v :
  keeps (touches_only sender) (write (set_lastReward sender v)).
Proof.
  apply keeps_write. intros w. split; auto.
  - intros a Ha. cbn. now apply slot_insert_ne.
  - exists []. split; [cbn; now rewrite app_nil_r | constructor].
Qed.

Lemma keeps_set_hasActiveRound sender v :
  keeps (touches_only sender) (write (set_hasActiveRound sender v)).
Proof.
  apply keeps_write. intros w. split; auto.
  - intros a Ha. cbn. now apply slot_insert_ne.
  - exists []. split; [cbn; now rewrite app_nil_r | constructor].
Qed.

Create HintDb keeps.

#[local] Hint Resolve keeps_ret keeps_read keeps_require keeps_lift keeps_issue
  keeps_binary keeps_select keeps_randEuint8 keeps_rem8 keeps_add8
  keeps_fromExternal keeps_allow keeps_set_points keeps_set_lastDice
  keeps_set_lastWin keeps_set_lastReward keeps_set_hasActiveRound : keeps.

Ltac keeps_steps :=
  repeat (apply keeps_bind; [auto with keeps | intros ?]);
  auto with keeps.

Lemma keeps_buyPoints sender value :
  keeps (touches_only sender) (buyPoints sender value).
Proof.
  unfold buyPoints, FHE_asEuint64, FHE_add64, FHE_allowThis. keeps_steps.
  now apply keeps_emit.
Qed.

Lemma keeps_startGame sender : keeps (touches_only sender) (startGame sender).
Proof.
  unfold startGame, FHE_allowThis. keeps_steps. now apply keeps_emit.
Qed.

Lemma keeps_submitGuess sender h proof :
  keeps (touches_only sender) (submitGuess sender h proof).
Proof.
  unfold submitGuess, FHE_asEuint8, FHE_asEuint64, FHE_gt8, FHE_eq8, FHE_add64,
    FHE_allowThis.
  keeps_steps. now apply keeps_emit.
Qed.

Lemma transact_touches_only sender c w :
  touches_only sender w (snd (transact sender c w)).
Proof.
  unfold transact.
  destruct (dispatch sender c w) as [[] w' | e w'] eqn:Hrun; cbn.
  - assert (touches_only sender w w') as [Hp Hd Hw Hr Ha Hs He].
    { destruct c; cbn in Hrun.
      + exact (keeps_buyPoints sender _ w tt w' Hrun).
      + exact (keeps_startGame sender w tt w' Hrun).
      + exact (keeps_submitGuess sender _ _ w tt w' Hrun). }
    now split.
  - apply touches_only_refl.
Qed.

(** X1: one point costs [10 ^ 13] wei.  In a reachable world a payment
    below that price is refused with "Insufficient ETH" and changes
    nothing; a payment from that price up to just below [2 ^ 64] points'
    worth commits and credits [value / 10 ^ 13] points, modulo [2 ^ 64]. *)
Theorem buyPoints_price w sender value :
  reachable w ->
  0 <= value < 2 ^ 64 * 10 ^ 13 ->
  (value < 10 ^ 13 ->
   transact sender (BuyPoints value) w = (Failed InsufficientPayment, w))
  ∧ (10 ^ 13 <= value ->
     fst (transact sender (BuyPoints value) w) = Succeeded
     ∧ plain 0 (points_of (snd (transact sender (BuyPoints value) w)) sender)
       = (plain 0 (points_of w sender) + value / 10 ^ 13) mod 2 ^ 64).
Proof.
  intros Hw [H0 Hlt].
  destruct (quotePoints_div value H0 Hlt) as [Hq Hr].
  split.
  - intros Hsmall. rewrite Z.div_small in Hq by lia.
    apply (transact_reverted sender (BuyPoints value) w _ w).
    now apply buyPoints_zero.
  - intros Hbig.
    assert (0 < value / 10 ^ 13) as Hp by (apply Z.div_str_pos; lia).
    destruct (buyPoints_commits w sender value _ Hw Hq Hp) as (w' & -> & Hpost).
    split; [reflexivity |]. apply (bp_points _ _ _ _ _ Hpost).
Qed.

(** X2: below the 64-bit cut the quote is monotone: a larger payment never
    buys fewer points. *)
Theorem quotePoints_monotone x y :
  0 <= x -> x <= y -> y < 2 ^ 64 * 10 ^ 13 ->
  exists p q, quotePoints x = inr p ∧ quotePoints y = inr q ∧ p <= q.
Proof.
  intros H0 Hxy Hy.
  destruct (quotePoints_div x H0 ltac:(lia)) as [Hp _].
  destruct (quotePoints_div y ltac:(lia) Hy) as [Hq _].
  exists (x / 10 ^ 13), (y / 10 ^ 13). repeat split; try assumption.
  apply Z.div_le_mono; lia.
Qed.

(** X3: splitting a payment in two never buys more points than paying at
    once, and loses at most one point. *)
Theorem quotePoints_split a b :
  0 <= a -> 0 <= b -> a + b < 2 ^ 64 * 10 ^ 13 ->
  exists pa pb pab,
    quotePoints a = inr pa ∧ quotePoints b = inr pb
    ∧ quotePoints (a + b) = inr pab
    ∧ pa + pb <= pab <= pa + pb + 1.
Proof.
  intros Ha Hb Hab.
  destruct (quotePoints_div a Ha ltac:(lia)) as [Hpa _].
  destruct (quotePoints_div b Hb ltac:(lia)) as [Hpb _].
  destruct (quotePoints_div (a + b) ltac:(lia) Hab) as [Hpab _].
  exists (a / 10 ^ 13), (b / 10 ^ 13), ((a + b) / 10 ^ 13).
  repeat split; try assumption.
  - pose proof (Z.div_mod a (10 ^ 13) ltac:(lia)).
    pose proof (Z.div_mod b (10 ^ 13) ltac:(lia)).
    pose proof (Z.mod_pos_bound a (10 ^ 13) ltac:(lia)).
    pose proof (Z.mod_pos_bound b (10 ^ 13) ltac:(lia)).
    apply Z.div_le_lower_bound; lia.
  - pose proof (Z.div_mod a (10 ^ 13) ltac:(lia)).
    pose proof (Z.div_mod b (10 ^ 13) ltac:(lia)).
    pose proof (Z.mod_pos_bound a (10 ^ 13) ltac:(lia)).
    pose proof (Z.mod_pos_bound b (10 ^ 13) ltac:(lia)).
    assert ((a + b) / 10 ^ 13 < a / 10 ^ 13 + b / 10 ^ 13 + 2); [| lia].
    apply Z.div_lt_upper_bound; lia.
Qed.

(** ** Players do not interfere *)

(** X4: a transaction touches the storage of its sender only: for every
    other player the five views return what they returned before, and the
    values behind the handles are the same. *)
Theorem other_players_untouched w sender c player :
  player <> sender ->
  getEncryptedPoints (snd (transact sender c w)) player
  = getEncryptedPoints w player
  ∧ getLastEncryptedDice (snd (transact sender c w)) player
    = getLastEncryptedDice w player
  ∧ getLastEncryptedWin (snd (transact sender c w)) player
    = getLastEncryptedWin w player
  ∧ getLastEncryptedReward (snd (transact sender c w)) player
    = getLastEncryptedReward w player
  ∧ hasActiveRound (snd (transact sender c w)) player = hasActiveRound w player
  ∧ points_of (snd (transact sender c w)) player = points_of w player
  ∧ dice_of (snd (transact sender c w)) player = dice_of w player
  ∧ win_of (snd (transact sender c w)) player = win_of w player
  ∧ reward_of (snd (transact sender c w)) player = reward_of w player.
Proof.
  intros Hne.
  destruct (transact_touches_only sender c w) as [Hp Hd Hw Hr Ha _ _].
  unfold getEncryptedPoints, getLastEncryptedDice, getLastEncryptedWin,
    getLastEncryptedReward, hasActiveRound.
  rewrite (Hp _ Hne), (Hd _ Hne), (Hw _ Hne), (Hr _ Hne), (Ha _ Hne).
  repeat split.
Qed.

Lemma run_touches_only txs w player :
  forallb (fun tx => negb (fst tx =? player)%N) txs = true ->
  points_of (run txs w) player = points_of w player
  ∧ dice_of (run txs w) player = dice_of w player
  ∧ win_of (run txs w) player = win_of w player
  ∧ reward_of (run txs w) player = reward_of w player
  ∧ active_of (run txs w) player = active_of w player.
Proof.
  revert w. induction txs as [| [sender c] rest IH]; intros w Hall; cbn.
  - repeat split.
  - cbn in Hall. apply andb_true_iff in Hall as [Hne Hrest].
    apply negb_true_iff, N.eqb_neq in Hne.
    destruct (IH (snd (transact sender c w)) Hrest) as (-> & -> & -> & -> & ->).
    destruct (transact_touches_only sender c w) as [Hp Hd Hw Hr Ha _ _].
    repeat split; auto.
Qed.

(** X9: for a player who has sent no transaction since the deployment,
    every view returns the zero value: the zero handle for the four
    encrypted slots, and no active round. *)
Theorem silent_player_views txs player :
  forallb (fun tx => negb (fst tx =? player)%N) txs = true ->
  getEncryptedPoints (run txs genesis) player = 0%N
  ∧ getLastEncryptedDice (run txs genesis) player = 0%N
  ∧ getLastEncryptedWin (run txs genesis) player = 0%N
  ∧ getLastEncryptedReward (run txs genesis) player = 0%N
  ∧ hasActiveRound (run txs genesis) player = false.
Proof.
  intros Hall.
  destruct (run_touches_only txs genesis player Hall) as (Hp & Hd & Hw & Hr & Ha).
  unfold getEncryptedPoints, getLastEncryptedDice, getLastEncryptedWin,
    getLastEncryptedReward, hasActiveRound.
  rewrite Hp, Hd, Hw, Hr, Ha. repeat split.
Qed.

Lemma run_persisted txs w : persisted w ⊆ persisted (run txs w).
Proof.
  revert w. induction txs as [| [sender c] rest IH]; intros w; cbn.
  - reflexivity.
  - etransitivity; [| apply IH].
    apply (to_persisted _ _ _ (transact_touches_only sender c w)).
Qed.

(** X5: no transaction takes an allowance back: whoever may decrypt a
    handle in some world may decrypt it after any further transactions. *)
Theorem allowances_never_revoked txs w h account :
  (h, account) ∈ persisted w -> (h, account) ∈ persisted (run txs w).
Proof. intros H. now apply (run_persisted txs w). Qed.

(** ** Invariants of the reachable worlds *)

Lemma Inv_run txs w : Inv w -> Inv (run txs w).
Proof.
  revert w. induction txs as [| [sender c] rest IH]; intros w HI; cbn.
  - exact HI.
  - now apply IH, transact_Inv.
Qed.

Lemma isInitialized_handle {A} (v : enc A) :
  isInitialized v = true <-> handle v <> 0%N.
Proof.
  unfold isInitialized. rewrite negb_true_iff. apply N.eqb_neq.
Qed.

Lemma granted_mono {A} (v : enc A) a w w' :
  persisted w ⊆ persisted w' -> granted v a w -> granted v a w'.
Proof. intros Hsub Hg Hi. destruct (Hg Hi). split; apply Hsub; assumption. Qed.

Lemma Granted_genesis : Granted genesis.
Proof. split; intros a; cbn; rewrite slot_empty; intros Hi; discriminate. Qed.

Lemma transact_Granted w sender c :
  Inv w -> Granted w -> Granted (snd (transact sender c w)).
Proof.
  intros HI [Gp Gd Gw Gr].
  pose proof (transact_touches_only sender c w) as [Tp Td Tw Tr _ Tsub _].
  destruct (transact sender c w) as [[| e] w'] eqn:Ht; cbn in *.
  2: { rewrite (transact_failed_same _ _ _ _ _ Ht). now split. }
  pose proof (transact_succeeded _ _ _ _ HI Ht) as Hpost.
  assert (forall a, a <> sender -> granted (points_of w' a) a w') as Op.
  { intros a Ha. rewrite (Tp a Ha). eauto using granted_mono. }
  assert (forall a, a <> sender -> granted (dice_of w' a) a w') as Od.
  { intros a Ha. rewrite (Td a Ha). eauto using granted_mono. }
  assert (forall a, a <> sender -> granted (win_of w' a) a w') as Ow.
  { intros a Ha. rewrite (Tw a Ha). eauto using granted_mono. }
  assert (forall a, a <> sender -> granted (reward_of w' a) a w') as Or.
  { intros a Ha. rewrite (Tr a Ha). eauto using granted_mono. }
  destruct c as [value | | h proof].
  - destruct Hpost as (p & _ & _ & Hpost).
    split; intros a; destruct (N.eq_dec a sender) as [-> | Hne]; auto.
    + intros _. split;
        [apply (bp_sender _ _ _ _ _ Hpost) | apply (bp_this _ _ _ _ _ Hpost)].
    + unfold dice_of. rewrite (bp_lastDice _ _ _ _ _ Hpost).
      apply (granted_mono _ _ w); auto. apply Gd.
    + unfold win_of. rewrite (bp_lastWin _ _ _ _ _ Hpost).
      apply (granted_mono _ _ w); auto. apply Gw.
    + unfold reward_of. rewrite (bp_lastReward _ _ _ _ _ Hpost).
      apply (granted_mono _ _ w); auto. apply Gr.
  - destruct Hpost as (_ & Hpost).
    split; intros a; destruct (N.eq_dec a sender) as [-> | Hne]; auto.
    + unfold points_of. rewrite (st_points _ _ _ Hpost).
      apply (granted_mono _ _ w); auto. apply Gp.
    + intros _. split;
        [apply (st_sender _ _ _ Hpost) | apply (st_this _ _ _ Hpost)].
    + unfold win_of. rewrite (st_lastWin _ _ _ Hpost).
      apply (granted_mono _ _ w); auto. apply Gw.
    + unfold reward_of. rewrite (st_lastReward _ _ _ Hpost).
      apply (granted_mono _ _ w); auto. apply Gr.
  - destruct Hpost as (b & _ & _ & Hpost).
    split; intros a; destruct (N.eq_dec a sender) as [-> | Hne]; auto.
    + intros _. split;
        [apply (su_points_sender _ _ _ _ Hpost)
        | apply (su_points_this _ _ _ _ Hpost)].
    + unfold dice_of. rewrite (su_lastDice _ _ _ _ Hpost).
      apply (granted_mono _ _ w); auto. apply Gd.
    + intros _. split;
        [apply (su_win_sender _ _ _ _ Hpost) | apply (su_win_this _ _ _ _ Hpost)].
    + intros _. split;
        [apply (su_reward_sender _ _ _ _ Hpost)
        | apply (su_reward_this _ _ _ _ Hpost)].
Qed.

Lemma reachable_Granted w : reachable w -> Granted w.
Proof.
  induction 1 as [| w sender c Hw IH _]; [apply Granted_genesis |].
  apply transact_Granted; [now apply reachable_Inv | exact IH].
Qed.

(** X7: in every reachable world, each handle a view returns for a player
    is the zero handle or carries a persistent allowance for that player
    and one for the contract: players can decrypt what is stored for
    them, and the contract can compute on it. *)
Theorem stored_values_decryptable w player :
  reachable w ->
  (getEncryptedPoints w player <> 0%N ->
   (getEncryptedPoints w player, player) ∈ persisted w
   ∧ (getEncryptedPoints w player, this) ∈ persisted w)
  ∧ (getLastEncryptedDice w player <> 0%N ->
     (getLastEncryptedDice w player, player) ∈ persisted w
     ∧ (getLastEncryptedDice w player, this) ∈ persisted w)
  ∧ (getLastEncryptedWin w player <> 0%N ->
     (getLastEncryptedWin w player, player) ∈ persisted w
     ∧ (getLastEncryptedWin w player, this) ∈ persisted w)
  ∧ (getLastEncryptedReward w player <> 0%N ->
     (getLastEncryptedReward w player, player) ∈ persisted w
     ∧ (getLastEncryptedReward w player, this) ∈ persisted w).
Proof.
  intros Hw. destruct (reachable_Granted w Hw) as [Gp Gd Gw Gr].
  unfold getEncryptedPoints, getLastEncryptedDice, getLastEncryptedWin,
    getLastEncryptedReward.
  split; [| split; [| split]]; intros Hne; apply isInitialized_handle in Hne.
  - now apply Gp.
  - now apply Gd.
  - now apply Gw.
  - now apply Gr.
Qed.

(** A committed or failed transaction does not reset a written slot. *)
Lemma transact_keeps_initialized w sender c a :
  Inv w ->
  (isInitialized (points_of w a) = true ->
   isInitialized (points_of (snd (transact sender c w)) a) = true)
  ∧ (isInitialized (dice_of w a) = true ->
     isInitialized (dice_of (snd (transact sender c w)) a) = true)
  ∧ (isInitialized (win_of w a) = true ->
     isInitialized (win_of (snd (transact sender c w)) a) = true)
  ∧ (isInitialized (reward_of w a) = true ->
     isInitialized (reward_of (snd (transact sender c w)) a) = true).
Proof.
  intros HI.
  pose proof (transact_touches_only sender c w) as [Tp Td Tw Tr _ _ _].
  destruct (N.eq_dec a sender) as [-> | Hne].
  2: { rewrite (Tp a Hne), (Td a Hne), (Tw a Hne), (Tr a Hne). tauto. }
  clear Tp Td Tw Tr.
  destruct (transact sender c w) as [[| e] w'] eqn:Ht; cbn.
  2: { rewrite (transact_failed_same _ _ _ _ _ Ht). tauto. }
  pose proof (transact_succeeded _ _ _ _ HI Ht) as Hpost.
  destruct c as [value | | h proof].
  - destruct Hpost as (p & _ & _ & Hpost).
    unfold dice_of, win_of, reward_of.
    rewrite (bp_lastDice _ _ _ _ _ Hpost), (bp_lastWin _ _ _ _ _ Hpost),
      (bp_lastReward _ _ _ _ _ Hpost).
    repeat split; auto. intros _. apply (bp_init _ _ _ _ _ Hpost).
  - destruct Hpost as (_ & Hpost).
    unfold points_of, win_of, reward_of.
    rewrite (st_points _ _ _ Hpost), (st_lastWin _ _ _ Hpost),
      (st_lastReward _ _ _ Hpost).
    repeat split; auto. intros _. apply (st_init _ _ _ Hpost).
  - destruct Hpost as (b & _ & _ & Hpost).
    unfold dice_of. rewrite (su_lastDice _ _ _ _ Hpost).
    repeat split; auto; intros _.
    + apply (su_points_init _ _ _ _ Hpost).
    + apply (su_win_init _ _ _ _ Hpost).
    + apply (su_reward_init _ _ _ _ Hpost).
Qed.

(** X8: a slot that holds a handle keeps holding one: once a view of a
    player returns a non-zero handle in a reachable world, it never
    returns the zero handle again. *)
Theorem handles_never_reset w txs player :
  reachable w ->
  (getEncryptedPoints w player <> 0%N ->
   getEncryptedPoints (run txs w) player <> 0%N)
  ∧ (getLastEncryptedDice w player <> 0%N ->
     getLastEncryptedDice (run txs w) player <> 0%N)
  ∧ (getLastEncryptedWin w player <> 0%N ->
     getLastEncryptedWin (run txs w) player <> 0%N)
  ∧ (getLastEncryptedReward w player <> 0%N ->
     getLastEncryptedReward (run txs w) player <> 0%N).
Proof.
  intros Hw. pose proof (reachable_Inv w Hw) as HI. clear Hw.
  unfold getEncryptedPoints, getLastEncryptedDice, getLastEncryptedWin,
    getLastEncryptedReward.
  rewrite <- !isInitialized_handle.
  revert w HI. induction txs as [| [sender c] rest IH]; intros w HI; cbn.
  - tauto.
  - destruct (transact_keeps_initialized w sender c player HI)
      as (Hp & Hd & Hwn & Hr).
    destruct (IH _ (transact_Inv w sender c HI)) as (Hp' & Hd' & Hwn' & Hr').
    repeat split; auto.
Qed.

Lemma outcome_consistent_genesis : outcome_consistent genesis.
Proof. intros a. cbn. now rewrite !slot_empty. Qed.

Lemma transact_outcome_consistent w sender c :
  Inv w -> outcome_consistent w ->
  outcome_consistent (snd (transact sender c w)).
Proof.
  intros HI Hc a.
  pose proof (transact_touches_only sender c w) as [_ _ Tw Tr _ _ _].
  destruct (N.eq_dec a sender) as [-> | Hne].
  2: { rewrite (Tw a Hne), (Tr a Hne). apply Hc. }
  clear Tw Tr.
  destruct (transact sender c w) as [[| e] w'] eqn:Ht; cbn.
  2: { rewrite (transact_failed_same _ _ _ _ _ Ht). apply Hc. }
  pose proof (transact_succeeded _ _ _ _ HI Ht) as Hpost.
  destruct c as [value | | h proof].
  - destruct Hpost as (p & _ & _ & Hpost).
    unfold win_of, reward_of.
    rewrite (bp_lastWin _ _ _ _ _ Hpost), (bp_lastReward _ _ _ _ _ Hpost).
    apply Hc.
  - destruct Hpost as (_ & Hpost).
    unfold win_of, reward_of.
    rewrite (st_lastWin _ _ _ Hpost), (st_lastReward _ _ _ Hpost).
    apply Hc.
  - destruct Hpost as (b & _ & _ & Hpost). apply (su_reward _ _ _ _ Hpost).
Qed.

Lemma reachable_outcome_consistent w : reachable w -> outcome_consistent w.
Proof.
  induction 1 as [| w sender c Hw IH _]; [apply outcome_consistent_genesis |].
  apply transact_outcome_consistent; [now apply reachable_Inv | exact IH].
Qed.

(** X14: in every reachable world the last outcome stored for a player is
    a consistent one: the last reward is 10000 when the last win flag is
    set and 0 when it is not, so it is never anything but 0 or 10000. *)
Theorem last_outcome_consistent w player :
  reachable w ->
  plain 0 (reward_of w player)
  = (if plain false (win_of w player) then 10000 else 0)
  ∧ (plain 0 (reward_of w player) = 0 ∨ plain 0 (reward_of w player) = 10000).
Proof.
  intros Hw. pose proof (reachable_outcome_consistent w Hw player) as H.
  unfold WIN_REWARD in H. split; [exact H |].
  rewrite H. destruct (plain false (win_of w player)); auto.
Qed.

(** X15: in every reachable world the dice stored for a player is either
    absent (zero handle, value 0, and then no round is open) or one of
    1, ..., 6. *)
Theorem dice_always_valid w player :
  reachable w ->
  (getLastEncryptedDice w player = 0%N
   ∧ plain 0 (dice_of w player) = 0
   ∧ hasActiveRound w player = false)
  ∨ (getLastEncryptedDice w player <> 0%N
     ∧ 1 <= plain 0 (dice_of w player) <= 6).
Proof.
  intros Hw. destruct (reachable_Inv w Hw) as [_ _ _ Hrange Hact].
  unfold getLastEncryptedDice, hasActiveRound, plain.
  destruct (isInitialized (dice_of w player)) eqn:Hi.
  - right. split; [now apply isInitialized_handle | now apply Hrange].
  - left. repeat split.
    + unfold isInitialized in Hi. apply negb_false_iff, N.eqb_eq in Hi. exact Hi.
    + destruct (active_of w player) eqn:Ha; [| reflexivity].
      rewrite (Hact player Ha) in Hi. discriminate.
Qed.

(** ** Receipts and the log *)

(** X13: in a reachable world the receipt of a call is decided by the
    quote of the payment, the caller's round flag and the input verifier
    alone; the only reverts are the overflow panic of the quote,
    "Insufficient ETH", "Active round exists", "No active round" and the
    rejected input proof.  No call fails on access control. *)
Theorem receipt_table w sender c :
  reachable w ->
  fst (transact sender c w) = receipt_of sender c w.
Proof.
  intros Hw. destruct c as [value | | h proof]; cbn [receipt_of].
  - destruct (quotePoints value) as [e | p] eqn:Hq.
    { now rewrite (transact_reverted sender (BuyPoints value) w _ w
                     (buyPoints_panic w sender value e Hq)). }
    pose proof (quotePoints_range _ _ Hq) as Hr.
    destruct (0 <? p) eqn:Hp.
    + apply Z.ltb_lt in Hp.
      now destruct (buyPoints_commits w sender value p Hw Hq Hp) as (w' & -> & _).
    + apply Z.ltb_ge in Hp. assert (p = 0) as -> by lia.
      now rewrite (transact_reverted sender (BuyPoints value) w _ w
                     (buyPoints_zero w sender value Hq)).
  - unfold hasActiveRound. destruct (active_of w sender) eqn:Hact.
    + now rewrite (transact_reverted sender StartGame w _ w
                     (startGame_active w sender Hact)).
    + now destruct (transact_startGame_ok w sender Hact) as (w' & -> & _).
  - unfold hasActiveRound. destruct (active_of w sender) eqn:Hact.
    + destruct (verifyInput sender h proof) as [b |] eqn:Hv.
      * now destruct (submitGuess_commits w sender h proof b Hw Hact Hv)
          as (w' & -> & _).
      * now rewrite (transact_reverted sender (SubmitGuess h proof) w _ w
                       (submitGuess_bad_proof w sender h proof Hact Hv)).
    + now rewrite (transact_reverted sender (SubmitGuess h proof) w _ w
                     (submitGuess_no_round w sender h proof Hact)).
Qed.

Lemma transact_log w sender c :
  Inv w ->
  events (snd (transact sender c w))
  = events w ++ (if succeeded (fst (transact sender c w))
                 then logged sender c (snd (transact sender c w))
                 else [])
  ∧ (succeeded (fst (transact sender c w)) = true ->
     length (logged sender c (snd (transact sender c w))) = 1%nat).
Proof.
  intros HI.
  destruct (transact sender c w) as [[| e] w'] eqn:Ht; cbn [fst snd succeeded].
  2: { rewrite (transact_failed_same _ _ _ _ _ Ht), app_nil_r.
       split; [reflexivity | discriminate]. }
  pose proof (transact_succeeded _ _ _ _ HI Ht) as Hpost.
  destruct c as [value | | h proof]; cbn [logged].
  - destruct Hpost as (p & Hq & _ & Hpost). rewrite Hq.
    split; [apply (bp_events _ _ _ _ _ Hpost) | reflexivity].
  - destruct Hpost as (_ & Hpost).
    split; [apply (st_events _ _ _ Hpost) | reflexivity].
  - destruct Hpost as (b & _ & _ & Hpost).
    split; [apply (su_events _ _ _ _ Hpost) | reflexivity].
Qed.

Lemma run_log_length txs w :
  Inv w ->
  length (events (run txs w)) = (length (events w) + commits txs w)%nat.
Proof.
  revert w. induction txs as [| [sender c] rest IH]; intros w HI; cbn.
  - lia.
  - rewrite (IH _ (transact_Inv w sender c HI)).
    destruct (transact_log w sender c HI) as [-> Hone].
    rewrite length_app.
    destruct (succeeded (fst (transact sender c w))).
    + rewrite (Hone eq_refl). lia.
    + cbn. lia.
Qed.

(** X6: the log records the committed calls, and nothing else.  In a
    reachable world a committed call appends exactly one event: the
    purchase with the payment and the quote, the round with the dice
    handle the view returns, the guess with the reward handle the view
    returns; a failed call appends nothing.  Hence after any run from the
    deployment the log has one entry per committed transaction. *)
Theorem log_records_commits :
  (forall w sender c,
     reachable w ->
     events (snd (transact sender c w))
     = events w ++ (if succeeded (fst (transact sender c w))
                    then logged sender c (snd (transact sender c w))
                    else [])
     ∧ (succeeded (fst (transact sender c w)) = true ->
        length (logged sender c (snd (transact sender c w))) = 1%nat))
  ∧ (forall txs, length (events (run txs genesis)) = commits txs genesis).
Proof.
  split.
  - intros w sender c Hw. apply transact_log, reachable_Inv, Hw.
  - intros txs. now rewrite (run_log_length txs genesis Inv_genesis).
Qed.

(** ** The dice of an open round *)

Lemma dice_fixed_step w sender c player :
  Inv w -> active_of w player = true ->
  dice_of (snd (transact sender c w)) player = dice_of w player.
Proof.
  intros HI Hact.
  destruct (transact sender c w) as [[| e] w'] eqn:Ht; cbn.
  2: { now rewrite (transact_failed_same _ _ _ _ _ Ht). }
  pose proof (transact_succeeded _ _ _ _ HI Ht) as Hpost.
  destruct c as [value | | h proof].
  - destruct Hpost as (p & _ & _ & Hpost).
    unfold dice_of. now rewrite (bp_lastDice _ _ _ _ _ Hpost).
  - destruct Hpost as (Hfree & Hpost).
    destruct (N.eq_dec player sender) as [-> | Hne]; [congruence |].
    now apply (st_others_dice _ _ _ Hpost).
  - destruct Hpost as (b & _ & _ & Hpost).
    unfold dice_of. now rewrite (su_lastDice _ _ _ _ Hpost).
Qed.

(** X10: an open round cannot be rolled again.  From a reachable world in
    which a player's round is open, as long as that player sends no
    [submitGuess], whatever anyone sends, the player's dice stays the very
    same encrypted value and the round stays open. *)
Theorem dice_fixed_while_open w txs player :
  reachable w ->
  hasActiveRound w player = true ->
  no_submit_by player txs = true ->
  dice_of (run txs w) player = dice_of w player
  ∧ getLastEncryptedDice (run txs w) player = getLastEncryptedDice w player
  ∧ hasActiveRound (run txs w) player = true.
Proof.
  intros Hw Hact Hno. pose proof (reachable_Inv w Hw) as HI. clear Hw.
  assert (dice_of (run txs w) player = dice_of w player) as Hd.
  { revert w HI Hact. unfold hasActiveRound.
    induction txs as [| [sender c] rest IH]; intros w HI Hact; cbn.
    - reflexivity.
    - cbn in Hno. apply andb_true_iff in Hno as [Hc Hrest].
      rewrite IH; try assumption.
      + now apply dice_fixed_step.
      + now apply transact_Inv.
      + apply active_stays; try assumption.
        destruct c; [exact I | exact I |].
        apply negb_true_iff, N.eqb_neq in Hc. exact Hc. }
  split; [exact Hd |]. split.
  - unfold getLastEncryptedDice. now rewrite Hd.
  - now apply active_stays_run.
Qed.

(** X11: the rules of a round, as the tests and the interface play them.
    In a reachable world with an open round the dice is one of 1, ..., 6;
    the guess the tests call correct is 1 ("big") exactly on 4, 5, 6 and 2
    ("small") exactly on 1, 2, 3, and the guess they call wrong is the
    other one; a submitted guess is paid 10000 when it is the correct
    guess and 0 otherwise. *)
Theorem round_rules w player h proof b :
  reachable w ->
  hasActiveRound w player = true ->
  verifyInput player h proof = Some b ->
  1 <= plain 0 (dice_of w player) <= 6
  ∧ (correctGuess (plain 0 (dice_of w player)) = 1
     <-> 4 <= plain 0 (dice_of w player))
  ∧ (correctGuess (plain 0 (dice_of w player)) = 2
     <-> plain 0 (dice_of w player) <= 3)
  ∧ wrongGuess (plain 0 (dice_of w player))
    = 3 - correctGuess (plain 0 (dice_of w player))
  ∧ plain 0 (reward_of (snd (transact player (SubmitGuess h proof) w)) player)
    = (if byte_value b =? correctGuess (plain 0 (dice_of w player))
       then 10000 else 0).
Proof.
  intros Hw Hact Hv.
  destruct (reachable_Inv w Hw) as [_ _ _ Hrange Hinit].
  pose proof (Hinit player Hact) as Hi.
  pose proof (Hrange player Hi) as Hd.
  assert (plain 0 (dice_of w player) = clear (dice_of w player)) as Hplain.
  { unfold plain. now rewrite Hi. }
  destruct (submitGuess_commits w player h proof b Hw Hact Hv)
    as (w' & -> & Hpost).
  cbn [snd]. rewrite (su_reward _ _ _ _ Hpost), (su_win _ _ _ _ Hpost).
  unfold correctGuess, wrongGuess, WIN_REWARD. rewrite Hplain.
  destruct (3 <? clear (dice_of w player)) eqn:Hbig.
  - apply Z.ltb_lt in Hbig. repeat split; try lia.
  - apply Z.ltb_ge in Hbig. repeat split; try lia.
Qed.

(** ** The ledger *)

Lemma credited_run txs w player :
  Inv w ->
  plain 0 (points_of (run txs w) player)
  = (plain 0 (points_of w player) + credited player txs w) mod 2 ^ 64.
Proof.
  revert w. induction txs as [| [sender c] rest IH]; intros w HI;
    cbn [run credited].
  - rewrite Z.add_0_r. symmetry. apply Z.mod_small.
    apply (inv_points_range _ HI).
  - rewrite (IH _ (transact_Inv w sender c HI)).
    assert (plain 0 (points_of (snd (transact sender c w)) player)
            = (plain 0 (points_of w player)
               + (if (sender =? player)%N && succeeded (fst (transact sender c w))
                  then match c with
                       | BuyPoints value =>
                           match quotePoints value with
                           | inr p => p
                           | inl _ => 0
                           end
                       | StartGame => 0
                       | SubmitGuess _ _ =>
                           plain 0 (reward_of (snd (transact sender c w)) player)
                       end
                  else 0)) mod 2 ^ 64) as ->.
    2: { rewrite Zplus_mod_idemp_l. f_equal. ring. }
    pose proof (inv_points_range _ HI player) as Hr.
    assert (plain 0 (points_of w player)
            = (plain 0 (points_of w player) + 0) mod 2 ^ 64) as Hsame.
    { rewrite Z.add_0_r. symmetry. now apply Z.mod_small. }
    destruct (N.eqb_spec sender player) as [-> | Hne]; cbn [andb].
    2: { rewrite (to_points _ _ _ (transact_touches_only sender c w) player)
           by congruence.
         exact Hsame. }
    destruct (transact player c w) as [[| e] w'] eqn:Ht; cbn [fst snd succeeded].
    2: { now rewrite (transact_failed_same _ _ _ _ _ Ht). }
    pose proof (transact_succeeded _ _ _ _ HI Ht) as Hpost.
    destruct c as [value | | h proof].
    + destruct Hpost as (p & Hq & _ & Hpost). rewrite Hq.
      apply (bp_points _ _ _ _ _ Hpost).
    + destruct Hpost as (_ & Hpost).
      unfold points_of. rewrite (st_points _ _ _ Hpost). exact Hsame.
    + destruct Hpost as (b & _ & _ & Hpost).
      apply (su_points _ _ _ _ Hpost).
Qed.

(** X12: the ledger adds up.  After any run from the deployment a
    player's balance is the sum of the quotes of that player's committed
    purchases and of the rewards of that player's committed guesses,
    modulo [2 ^ 64]. *)
Theorem balance_is_credits txs player :
  plain 0 (points_of (run txs genesis) player)
  = credited player txs genesis mod 2 ^ 64.
Proof.
  rewrite (credited_run txs genesis player Inv_genesis).
  cbn [points_of genesis _points]. now rewrite slot_empty.
Qed.

(** ** The balance across one transaction *)

(** C7, amended: a balance is only ever added to.  In a reachable world a
    transaction keeps the very handle of a player's balance when the
    player is not the sender, when the call reverts, and when the call is
    [startGame]; a committed [buyPoints] of the player replaces it by the
    homomorphic sum of the old balance and the quote, which is positive;
    a committed [submitGuess] of the player replaces it by the homomorphic
    sum of the old balance and the stored reward, which is 0 or 10000.
    The sum is taken modulo [2 ^ 64]: it is the old balance plus the
    amount, hence not below the old balance, whenever that stays below
    [2 ^ 64]. *)
Theorem points_only_added w sender c player :
  reachable w ->
  0 <= plain 0 (points_of w player) < 2 ^ 64
  ∧ (player <> sender ∨ fst (transact sender c w) <> Succeeded ∨ c = StartGame ->
     points_of (snd (transact sender c w)) player = points_of w player)
  ∧ (forall value,
       player = sender -> c = BuyPoints value ->
       fst (transact sender c w) = Succeeded ->
       exists p,
         quotePoints value = inr p
         ∧ 0 < p < 2 ^ 64
         ∧ plain 0 (points_of (snd (transact sender c w)) player)
           = (plain 0 (points_of w player) + p) mod 2 ^ 64
         ∧ (plain 0 (points_of w player) + p < 2 ^ 64 ->
            plain 0 (points_of (snd (transact sender c w)) player)
            = plain 0 (points_of w player) + p))
  ∧ (forall h proof,
       player = sender -> c = SubmitGuess h proof ->
       fst (transact sender c w) = Succeeded ->
       plain 0 (reward_of (snd (transact sender c w)) player)
       = (if plain false (win_of (snd (transact sender c w)) player)
          then 10000 else 0)
       ∧ plain 0 (points_of (snd (transact sender c w)) player)
         = (plain 0 (points_of w player)
            + plain 0 (reward_of (snd (transact sender c w)) player))
             mod 2 ^ 64
       ∧ (plain 0 (points_of w player)
          + plain 0 (reward_of (snd (transact sender c w)) player) < 2 ^ 64 ->
          plain 0 (points_of (snd (transact sender c w)) player)
          = plain 0 (points_of w player)
            + plain 0 (reward_of (snd (transact sender c w)) player))).
Proof.
  intros Hw. pose proof (reachable_Inv w Hw) as HI.
  pose proof (inv_points_range _ HI player) as Hr.
  pose proof (transact_touches_only sender c w) as Htouch.
  pose proof (transact_succeeded w sender c) as Hsucc.
  split; [exact Hr |].
  destruct (transact sender c w) as [[| e] w'] eqn:Ht; cbn [fst snd] in *.
  2: { rewrite (transact_failed_same _ _ _ _ _ Ht).
       split; [reflexivity |]. split; intros; discriminate. }
  specialize (Hsucc w' HI eq_refl).
  split; [| split].
  - intros [Hne | [Hfailed | ->]].
    + now apply (to_points _ _ _ Htouch).
    + now destruct Hfailed.
    + destruct Hsucc as (_ & Hpost).
      unfold points_of. now rewrite (st_points _ _ _ Hpost).
  - intros value -> -> _.
    destruct Hsucc as (p & Hq & Hp & Hpost).
    pose proof (quotePoints_range _ _ Hq) as Hpr.
    pose proof (bp_points _ _ _ _ _ Hpost) as Hpts.
    exists p. split; [exact Hq |].
    split; [change (2 ^ 64) with Uint.max64; lia |].
    split; [exact Hpts |].
    intros Hlt. rewrite Hpts. apply wrap_add_small; lia.
  - intros h proof -> -> _.
    destruct Hsucc as (b & _ & _ & Hpost).
    pose proof (su_reward _ _ _ _ Hpost) as Hrew.
    pose proof (su_points _ _ _ _ Hpost) as Hpts.
    split; [exact Hrew |]. split; [exact Hpts |].
    intros Hlt. rewrite Hpts. apply wrap_add_small; [lia | | exact Hlt].
    rewrite Hrew. unfold WIN_REWARD. destruct (plain false _); lia.
Qed.

(** C8: with an open round and an accepted proof, a guess other than 1
    and 2 loses.  The call commits and stores its outcome: the value the
    guess is compared with is 1 or 2, the win flag written is the result
    of that comparison, which is false, the reward written is 0, both
    under non-zero handles; the balance keeps its value, the round is
    closed, and the guess is logged with the handle of that reward. *)
Theorem submitGuess_other_guess w sender h proof b :
  reachable w ->
  hasActiveRound w sender = true ->
  verifyInput sender h proof = Some b ->
  byte_value b <> 1 -> byte_value b <> 2 ->
  exists w',
    transact sender (SubmitGuess h proof) w = (Succeeded, w')
    ∧ ((if 3 <? plain 0 (dice_of w sender) then 1 else 2) = 1
       ∨ (if 3 <? plain 0 (dice_of w sender) then 1 else 2) = 2)
    ∧ getLastEncryptedWin w' sender <> 0%N
    ∧ getLastEncryptedReward w' sender <> 0%N
    ∧ clear (win_of w' sender)
      = (byte_value b =? (if 3 <? plain 0 (dice_of w sender) then 1 else 2))
    ∧ clear (win_of w' sender) = false
    ∧ clear (reward_of w' sender) = 0
    ∧ plain false (win_of w' sender) = false
    ∧ plain 0 (reward_of w' sender) = 0
    ∧ plain 0 (points_of w' sender) = plain 0 (points_of w sender)
    ∧ hasActiveRound w' sender = false
    ∧ events w'
      = events w ++ [GuessSubmitted sender (getLastEncryptedReward w' sender)].
Proof.
  intros Hw Hact Hv H1 H2.
  destruct (submitGuess_commits w sender h proof b Hw Hact Hv)
    as (w' & Ht & Hpost).
  pose proof (inv_points_range _ (reachable_Inv w Hw) sender) as Hr.
  pose proof (su_win_init _ _ _ _ Hpost) as Hwi.
  pose proof (su_reward_init _ _ _ _ Hpost) as Hri.
  pose proof (su_win _ _ _ _ Hpost) as Hwin.
  pose proof (su_reward _ _ _ _ Hpost) as Hrew.
  unfold plain in Hwin at 1. rewrite Hwi in Hwin.
  assert (clear (win_of w' sender) = false) as Hlost.
  { rewrite Hwin. apply Z.eqb_neq.
    destruct (3 <? plain 0 (dice_of w sender)); assumption. }
  assert (plain false (win_of w' sender) = false) as Hplost.
  { unfold plain. now rewrite Hwi. }
  rewrite Hplost in Hrew.
  assert (clear (reward_of w' sender) = 0) as Hzero.
  { unfold plain in Hrew. now rewrite Hri in Hrew. }
  exists w'.
  split; [exact Ht |].
  split; [destruct (3 <? plain 0 (dice_of w sender)); auto |].
  split; [now apply isInitialized_handle |].
  split; [now apply isInitialized_handle |].
  split; [exact Hwin |]. split; [exact Hlost |]. split; [exact Hzero |].
  split; [exact Hplost |]. split; [exact Hrew |].
  split.
  { rewrite (su_points _ _ _ _ Hpost), Hrew, Z.add_0_r.
    apply wrap_small. now rewrite modulus_64. }
  split; [apply (su_active _ _ _ _ Hpost) |].
  apply (su_events _ _ _ _ Hpost).
Qed.

End Contract.

(** * Runs of the contract in the sample environment *)

Import Sample.

(** The contract among the sample players, with a source that always draws
    the byte 5: every dice is 6. *)
Abbreviation sample_transact := (transact contract verifier (source x05)).
Abbreviation sample_run := (run contract verifier (source x05)).
Abbreviation sample_reachable := (reachable contract verifier (source x05)).

Lemma sample_run_reachable txs :
  forallb (fun tx => well_formed (snd tx)) txs = true ->
  sample_reachable (sample_run txs genesis).
Proof. intros H. apply run_reachable; [constructor | exact H]. Qed.

(** ** The tests of the repository, run on the embedding *)

(** "quotes 100000 points per 1 ETH" *)
Example test_quote : quotePoints (10 ^ 18) = inr 100000.
Proof. reflexivity. Qed.

(** "buys points and decrypts balance" *)
Example test_buy :
  getEncryptedPoints (sample_run [(alice, BuyPoints (10 ^ 18))] genesis) alice
  <> 0%N
  ∧ plain 0 (points_of (sample_run [(alice, BuyPoints (10 ^ 18))] genesis) alice)
    = 100000.
Proof. vm_compute. split; congruence. Qed.

(** "plays a round and receives reward when guessing correctly": the dice
    is 6, the correct guess is 1. *)
Example test_win :
  hasActiveRound (sample_run [(alice, StartGame)] genesis) alice = true
  ∧ plain 0 (dice_of (sample_run [(alice, StartGame)] genesis) alice) = 6
  ∧ hasActiveRound
      (sample_run [(alice, StartGame); (alice, SubmitGuess 77 [x01])] genesis)
      alice = false
  ∧ plain 0 (reward_of
      (sample_run [(alice, StartGame); (alice, SubmitGuess 77 [x01])] genesis)
      alice) = 10000
  ∧ plain 0 (points_of
      (sample_run [(alice, StartGame); (alice, SubmitGuess 77 [x01])] genesis)
      alice) = 10000.
Proof. vm_compute. repeat split; congruence. Qed.

(** "receives 0 reward when guessing incorrectly" *)
Example test_lose :
  plain 0 (reward_of
    (sample_run [(alice, StartGame); (alice, SubmitGuess 77 [x02])] genesis)
    alice) = 0.
Proof. vm_compute. reflexivity. Qed.

(** ** C1 *)

(** With a balance of [2 ^ 64 - 1] a correct guess is rewarded 10000, and
    the balance drops to 9999: it does not increase by the reward. *)
Lemma submitGuess_reward_wraps :
  sample_reachable (sample_run rich_round_open genesis)
  ∧ hasActiveRound (sample_run rich_round_open genesis) alice = true
  ∧ plain 0 (points_of (sample_run rich_round_open genesis) alice) = 2 ^ 64 - 1
  ∧ fst (sample_transact alice (SubmitGuess 77 [x01])
           (sample_run rich_round_open genesis)) = Succeeded
  ∧ plain false
      (win_of (snd (sample_transact alice (SubmitGuess 77 [x01])
                      (sample_run rich_round_open genesis))) alice) = true
  ∧ plain 0
      (reward_of (snd (sample_transact alice (SubmitGuess 77 [x01])
                         (sample_run rich_round_open genesis))) alice) = 10000
  ∧ plain 0
      (points_of (snd (sample_transact alice (SubmitGuess 77 [x01])
                         (sample_run rich_round_open genesis))) alice) = 9999
  ∧ 9999 <> (2 ^ 64 - 1) + 10000.
Proof.
  split; [now apply sample_run_reachable |].
  vm_compute. repeat split; congruence.
Qed.

Lemma submitGuess_resolves_witness :
  sample_reachable (sample_run round_open genesis)
  ∧ hasActiveRound (sample_run round_open genesis) alice = true
  ∧ verifyInput contract verifier alice 77 [x01] = Some x01
  ∧ exists w',
      sample_transact alice (SubmitGuess 77 [x01]) (sample_run round_open genesis)
      = (Succeeded, w')
      ∧ plain 0 (reward_of w' alice)
        = (if plain false (win_of w' alice) then 10000 else 0)
      ∧ hasActiveRound w' alice = false.
Proof.
  assert (sample_reachable (sample_run round_open genesis)) as Hr
    by now apply sample_run_reachable.
  assert (hasActiveRound (sample_run round_open genesis) alice = true) as Ha
    by (vm_compute; reflexivity).
  assert (verifyInput contract verifier alice 77 [x01] = Some x01) as Hv
    by reflexivity.
  split; [exact Hr |]. split; [exact Ha |]. split; [exact Hv |].
  destruct (submitGuess_resolves contract verifier (source x05) _ alice 77
              [x01] x01 Hr Ha Hv)
    as (w' & Ht & _ & Hrew & _ & _ & _ & Hclosed).
  exists w'. split; [exact Ht |]. split; [exact Hrew | exact Hclosed].
Defined.

(** ** C2 *)

Lemma submitGuess_failures_witness :
  hasActiveRound genesis alice = false
  ∧ sample_transact alice (SubmitGuess 77 [x01]) genesis
    = (Failed NoActiveRound, genesis)
  ∧ hasActiveRound (sample_run round_open genesis) alice = true
  ∧ verifyInput contract verifier alice 77 [] = None
  ∧ sample_transact alice (SubmitGuess 77 []) (sample_run round_open genesis)
    = (Failed InvalidProof, sample_run round_open genesis).
Proof.
  assert (hasActiveRound (sample_run round_open genesis) alice = true) as Ha
    by (vm_compute; reflexivity).
  split; [reflexivity |]. split.
  { apply (submitGuess_failures contract verifier (source x05) genesis
             alice 77 [x01]).
    reflexivity. }
  split; [exact Ha |]. split; [reflexivity |].
  apply (submitGuess_failures contract verifier (source x05)
           (sample_run round_open genesis) alice 77 []);
    [exact Ha | reflexivity].
Defined.

(** ** C3 *)

Lemma startGame_one_round_witness :
  hasActiveRound genesis alice = false
  ∧ fst (sample_transact alice StartGame genesis) = Succeeded
  ∧ no_submit_by alice [(bob, StartGame); (bob, SubmitGuess 78 [x02]);
                        (alice, BuyPoints pittance)] = true
  ∧ fst (sample_transact alice StartGame
           (sample_run [(bob, StartGame); (bob, SubmitGuess 78 [x02]);
                        (alice, BuyPoints pittance)]
              (snd (sample_transact alice StartGame genesis))))
    = Failed ActiveRoundExists.
Proof.
  destruct (startGame_one_round contract verifier (source x05))
    as (_ & Hfree & _ & Hsecond).
  assert (fst (sample_transact alice StartGame genesis) = Succeeded) as Hok
    by (apply Hfree; reflexivity).
  split; [reflexivity |]. split; [exact Hok |]. split; [reflexivity |].
  apply Hsecond; [constructor | exact Hok | reflexivity].
Defined.

(** ** C4 *)

Lemma startGame_dice_witness :
  sample_transact alice StartGame genesis
  = (Succeeded, snd (sample_transact alice StartGame genesis))
  ∧ 1 <= plain 0 (dice_of (snd (sample_transact alice StartGame genesis)) alice) <= 6
  ∧ hasActiveRound (snd (sample_transact alice StartGame genesis)) alice = true.
Proof.
  assert (sample_transact alice StartGame genesis
          = (Succeeded, snd (sample_transact alice StartGame genesis))) as Ht
    by (vm_compute; reflexivity).
  split; [exact Ht |].
  destruct (startGame_dice contract verifier (source x05) genesis alice _ Ht)
    as (_ & _ & Hrange & Hact).
  split; assumption.
Defined.

(** ** C5 *)

(** A second purchase on a balance of [2 ^ 64 - 1] commits, for one point,
    and leaves a balance of 0: the purchases do not accumulate. *)
Lemma buyPoints_sum_wraps :
  sample_reachable (sample_run [(alice, BuyPoints fortune)] genesis)
  ∧ 0 <= pittance < Uint.max256
  ∧ quotePoints pittance = inr 1
  ∧ plain 0 (points_of (sample_run [(alice, BuyPoints fortune)] genesis) alice)
    = 2 ^ 64 - 1
  ∧ fst (sample_transact alice (BuyPoints pittance)
           (sample_run [(alice, BuyPoints fortune)] genesis)) = Succeeded
  ∧ plain 0
      (points_of (snd (sample_transact alice (BuyPoints pittance)
                         (sample_run [(alice, BuyPoints fortune)] genesis)))
         alice) = 0
  ∧ 0 <> (2 ^ 64 - 1) + 1.
Proof.
  split; [now apply sample_run_reachable |].
  vm_compute. repeat split; congruence.
Qed.

Lemma buyPoints_adds_witness :
  sample_reachable genesis
  ∧ quotePoints ether = inr 100000
  ∧ sample_transact alice (BuyPoints ether) genesis
    = (Succeeded, snd (sample_transact alice (BuyPoints ether) genesis))
  ∧ plain 0 (points_of (snd (sample_transact alice (BuyPoints ether) genesis)) alice)
    = (plain 0 (points_of genesis alice) + 100000) mod 2 ^ 64.
Proof.
  assert (sample_reachable genesis) as Hr by constructor.
  assert (quotePoints ether = inr 100000) as Hq by reflexivity.
  assert (sample_transact alice (BuyPoints ether) genesis
          = (Succeeded, snd (sample_transact alice (BuyPoints ether) genesis)))
    as Ht by (vm_compute; reflexivity).
  split; [exact Hr |]. split; [exact Hq |]. split; [exact Ht |].
  destruct (buyPoints_adds contract verifier (source x05) genesis alice ether Hr)
    as (_ & _ & Hadd).
  exact (proj1 (Hadd 100000 _ Hq Ht)).
Defined.

(** ** C6 *)

(** Half a point's worth of wei buys nothing, and twice that buys one
    point: the quote of the double is not the double of the quote. *)
Lemma quotePoints_not_linear :
  0 <= 5 * 10 ^ 12
  ∧ 2 * (5 * 10 ^ 12) * POINTS_PER_ETH < Uint.max256
  ∧ quotePoints (5 * 10 ^ 12) = inr 0
  ∧ quotePoints (2 * (5 * 10 ^ 12)) = inr 1
  ∧ 1 <> 2 * 0.
Proof. vm_compute. repeat split; congruence. Qed.

Lemma quotePoints_doubling_witness :
  0 <= 3 * ether
  ∧ 2 * (3 * ether) * POINTS_PER_ETH < Uint.max256
  ∧ 2 * (3 * ether) * POINTS_PER_ETH / ether < Uint.max64
  ∧ (3 * ether) * POINTS_PER_ETH mod ether = 0
  ∧ quotePoints (3 * ether) = inr ((3 * ether) * POINTS_PER_ETH / ether)
  ∧ quotePoints (2 * (3 * ether))
    = inr (2 * ((3 * ether) * POINTS_PER_ETH / ether)).
Proof.
  assert (0 <= 3 * ether) as H0 by (vm_compute; discriminate).
  assert (2 * (3 * ether) * POINTS_PER_ETH < Uint.max256) as H1 by reflexivity.
  assert (2 * (3 * ether) * POINTS_PER_ETH / ether < Uint.max64) as H2
    by reflexivity.
  assert ((3 * ether) * POINTS_PER_ETH mod ether = 0) as H3 by reflexivity.
  destruct (quotePoints_doubling (3 * ether) H0 H1 H2) as (Hq & _ & Hlin & _).
  split; [exact H0 |]. split; [exact H1 |]. split; [exact H2 |].
  split; [exact H3 |]. split; [exact Hq | exact (Hlin H3)].
Defined.

(** ** C7 *)

(** bob holds [2 ^ 64 - 5] points, buys 10 more, and holds 5. *)
Lemma points_decrease :
  sample_reachable
    (sample_run [(bob, BuyPoints ((2 ^ 64 - 5) * 10 ^ 13))] genesis)
  ∧ well_formed (BuyPoints (10 * 10 ^ 13)) = true
  ∧ plain 0 (points_of
      (sample_run [(bob, BuyPoints ((2 ^ 64 - 5) * 10 ^ 13))] genesis) bob)
    = 2 ^ 64 - 5
  ∧ fst (sample_transact bob (BuyPoints (10 * 10 ^ 13))
           (sample_run [(bob, BuyPoints ((2 ^ 64 - 5) * 10 ^ 13))] genesis))
    = Succeeded
  ∧ plain 0 (points_of
      (snd (sample_transact bob (BuyPoints (10 * 10 ^ 13))
              (sample_run [(bob, BuyPoints ((2 ^ 64 - 5) * 10 ^ 13))] genesis)))
      bob) = 5
  ∧ 5 < 2 ^ 64 - 5.
Proof.
  split; [now apply sample_run_reachable |].
  vm_compute. repeat split; congruence.
Qed.

Lemma points_only_added_witness :
  sample_reachable (sample_run round_open genesis)
  ∧ fst (sample_transact alice (SubmitGuess 77 [x01])
           (sample_run round_open genesis)) = Succeeded
  ∧ plain 0 (reward_of
      (snd (sample_transact alice (SubmitGuess 77 [x01])
              (sample_run round_open genesis))) alice)
    = (if plain false (win_of
            (snd (sample_transact alice (SubmitGuess 77 [x01])
                    (sample_run round_open genesis))) alice)
       then 10000 else 0)
  ∧ plain 0 (points_of
      (snd (sample_transact alice (SubmitGuess 77 [x01])
              (sample_run round_open genesis))) alice)
    = (plain 0 (points_of (sample_run round_open genesis) alice)
       + plain 0 (reward_of
           (snd (sample_transact alice (SubmitGuess 77 [x01])
                   (sample_run round_open genesis))) alice))
        mod 2 ^ 64
  ∧ (bob <> alice ->
     points_of (snd (sample_transact alice (SubmitGuess 77 [x01])
                       (sample_run round_open genesis))) bob
     = points_of (sample_run round_open genesis) bob).
Proof.
  assert (sample_reachable (sample_run round_open genesis)) as Hr
    by now apply sample_run_reachable.
  assert (fst (sample_transact alice (SubmitGuess 77 [x01])
                 (sample_run round_open genesis)) = Succeeded) as Hok
    by (vm_compute; reflexivity).
  split; [exact Hr |]. split; [exact Hok |].
  destruct (points_only_added contract verifier (source x05) _ alice
              (SubmitGuess 77 [x01]) alice Hr) as (_ & _ & _ & Hguess).
  destruct (Hguess 77%N [x01] eq_refl eq_refl Hok) as (Hrew & Hpts & _).
  split; [exact Hrew |]. split; [exact Hpts |].
  intros Hne.
  destruct (points_only_added contract verifier (source x05) _ alice
              (SubmitGuess 77 [x01]) bob Hr) as (_ & Hsame & _).
  apply Hsame. left. exact Hne.
Defined.

(** ** C8 *)

Lemma submitGuess_other_guess_witness :
  sample_reachable (sample_run round_open genesis)
  ∧ hasActiveRound (sample_run round_open genesis) alice = true
  ∧ verifyInput contract verifier alice 77 [x07] = Some x07
  ∧ byte_value x07 <> 1
  ∧ byte_value x07 <> 2
  ∧ exists w',
      sample_transact alice (SubmitGuess 77 [x07]) (sample_run round_open genesis)
      = (Succeeded, w')
      ∧ getLastEncryptedWin w' alice <> 0%N
      ∧ getLastEncryptedReward w' alice <> 0%N
      ∧ clear (win_of w' alice) = false
      ∧ clear (reward_of w' alice) = 0
      ∧ plain 0 (points_of w' alice)
        = plain 0 (points_of (sample_run round_open genesis) alice)
      ∧ hasActiveRound w' alice = false.
Proof.
  assert (sample_reachable (sample_run round_open genesis)) as Hr
    by now apply sample_run_reachable.
  assert (hasActiveRound (sample_run round_open genesis) alice = true) as Ha
    by (vm_compute; reflexivity).
  assert (verifyInput contract verifier alice 77 [x07] = Some x07) as Hv
    by reflexivity.
  assert (byte_value x07 <> 1) as H1 by (vm_compute; discriminate).
  assert (byte_value x07 <> 2) as H2 by (vm_compute; discriminate).
  split; [exact Hr |]. split; [exact Ha |]. split; [exact Hv |].
  split; [exact H1 |]. split; [exact H2 |].
  destruct (submitGuess_other_guess contract verifier (source x05) _ alice 77
              [x07] x07 Hr Ha Hv H1 H2)
    as (w' & Ht & _ & Hwh & Hrh & _ & Hlost & Hzero & _ & _ & Hpts & Hclosed & _).
  exists w'. split; [exact Ht |]. split; [exact Hwh |]. split; [exact Hrh |].
  split; [exact Hlost |]. split; [exact Hzero |]. split; [exact Hpts |].
  exact Hclosed.
Defined.

(** ** C9 *)

Lemma startGame_needs_no_points_witness :
  sample_reachable genesis
  ∧ hasActiveRound genesis alice = false
  ∧ points_of genesis alice = uninitialized 0
  ∧ exists w1 w2,
      sample_transact alice StartGame genesis = (Succeeded, w1)
      ∧ sample_transact alice (SubmitGuess 77 [x01]) w1 = (Succeeded, w2)
      ∧ plain 0 (points_of w2 alice) = 10000.
Proof.
  assert (sample_reachable genesis) as Hr by constructor.
  assert (hasActiveRound genesis alice = false) as Ha by reflexivity.
  assert (points_of genesis alice = uninitialized 0) as Hfresh by reflexivity.
  split; [exact Hr |]. split; [exact Ha |]. split; [exact Hfresh |].
  destruct (startGame_needs_no_points contract verifier (source x05) genesis
              alice Hr Ha) as (w1 & Ht1 & _ & _ & Hguess).
  assert (w1 = snd (sample_transact alice StartGame genesis)) as Hw1
    by now rewrite Ht1.
  assert (verifyInput contract verifier alice 77 [x01] = Some x01) as Hv
    by reflexivity.
  assert (byte_value x01 = (if 3 <? plain 0 (dice_of w1 alice) then 1 else 2))
    as Hright by (rewrite Hw1; vm_compute; reflexivity).
  destruct (Hguess 77%N [x01] x01 Hv Hright) as (w2 & Ht2 & _ & Hpaid).
  exists w1, w2. split; [exact Ht1 |]. split; [exact Ht2 |].
  exact (proj1 (Hpaid Hfresh)).
Defined.

(** ** C10 *)

Lemma quotePoints_truncates_witness :
  0 <= 2 ^ 64 * 10 ^ 13
  ∧ 2 ^ 64 * 10 ^ 13 * POINTS_PER_ETH < Uint.max256
  ∧ quotePoints (2 ^ 64 * 10 ^ 13)
    = inr ((2 ^ 64 * 10 ^ 13 * POINTS_PER_ETH / ether) mod 2 ^ 64)
  ∧ 0 <= 2 ^ 256 - 1 < Uint.max256
  ∧ 2 ^ 256 <= (2 ^ 256 - 1) * POINTS_PER_ETH
  ∧ quotePoints (2 ^ 256 - 1) = inl (Panic 17).
Proof.
  assert (0 <= 2 ^ 64 * 10 ^ 13) as H0 by (vm_compute; discriminate).
  assert (2 ^ 64 * 10 ^ 13 * POINTS_PER_ETH < Uint.max256) as H1 by reflexivity.
  assert (0 <= 2 ^ 256 - 1 < Uint.max256) as H2
    by (split; [vm_compute; discriminate | reflexivity]).
  assert (2 ^ 256 <= (2 ^ 256 - 1) * POINTS_PER_ETH) as H3
    by (vm_compute; discriminate).
  destruct quotePoints_truncates as (Hcut & _ & Hfail).
  split; [exact H0 |]. split; [exact H1 |].
  split; [exact (Hcut _ H0 H1) |].
  split; [exact H2 |]. split; [exact H3 |].
  exact (Hfail _ H2 H3).
Defined.

(** * The further properties, run in the sample environment *)

Lemma buyPoints_price_witness :
  sample_reachable genesis
  ∧ 0 <= 10 ^ 13 - 1 < 2 ^ 64 * 10 ^ 13
  ∧ 10 ^ 13 - 1 < 10 ^ 13
  ∧ sample_transact alice (BuyPoints (10 ^ 13 - 1)) genesis
    = (Failed InsufficientPayment, genesis)
  ∧ 0 <= 5 * 10 ^ 13 < 2 ^ 64 * 10 ^ 13
  ∧ 10 ^ 13 <= 5 * 10 ^ 13
  ∧ fst (sample_transact alice (BuyPoints (5 * 10 ^ 13)) genesis) = Succeeded.
Proof.
  assert (sample_reachable genesis) as Hr by constructor.
  assert (0 <= 10 ^ 13 - 1 < 2 ^ 64 * 10 ^ 13) as H1
    by (split; [vm_compute; discriminate | reflexivity]).
  assert (10 ^ 13 - 1 < 10 ^ 13) as H2 by reflexivity.
  assert (0 <= 5 * 10 ^ 13 < 2 ^ 64 * 10 ^ 13) as H3
    by (split; [vm_compute; discriminate | reflexivity]).
  assert (10 ^ 13 <= 5 * 10 ^ 13) as H4 by (vm_compute; discriminate).
  split; [exact Hr |]. split; [exact H1 |]. split; [exact H2 |].
  split.
  { exact (proj1 (buyPoints_price contract verifier (source x05) genesis alice
                    _ Hr H1) H2). }
  split; [exact H3 |]. split; [exact H4 |].
  exact (proj1 (proj2 (buyPoints_price contract verifier (source x05) genesis
                         alice _ Hr H3) H4)).
Defined.

Lemma quotePoints_monotone_witness :
  0 <= 10 ^ 13
  ∧ 10 ^ 13 <= 3 * 10 ^ 13
  ∧ 3 * 10 ^ 13 < 2 ^ 64 * 10 ^ 13
  ∧ exists p q,
      quotePoints (10 ^ 13) = inr p ∧ quotePoints (3 * 10 ^ 13) = inr q ∧ p <= q.
Proof.
  assert (0 <= 10 ^ 13) as H0 by (vm_compute; discriminate).
  assert (10 ^ 13 <= 3 * 10 ^ 13) as H1 by (vm_compute; discriminate).
  assert (3 * 10 ^ 13 < 2 ^ 64 * 10 ^ 13) as H2 by reflexivity.
  split; [exact H0 |]. split; [exact H1 |]. split; [exact H2 |].
  exact (quotePoints_monotone _ _ H0 H1 H2).
Defined.

Lemma quotePoints_split_witness :
  0 <= 5 * 10 ^ 12
  ∧ 5 * 10 ^ 12 + 5 * 10 ^ 12 < 2 ^ 64 * 10 ^ 13
  ∧ exists pa pb pab,
      quotePoints (5 * 10 ^ 12) = inr pa ∧ quotePoints (5 * 10 ^ 12) = inr pb
      ∧ quotePoints (5 * 10 ^ 12 + 5 * 10 ^ 12) = inr pab
      ∧ pa + pb <= pab <= pa + pb + 1.
Proof.
  assert (0 <= 5 * 10 ^ 12) as H0 by (vm_compute; discriminate).
  assert (5 * 10 ^ 12 + 5 * 10 ^ 12 < 2 ^ 64 * 10 ^ 13) as H1 by reflexivity.
  split; [exact H0 |]. split; [exact H1 |].
  exact (quotePoints_split _ _ H0 H0 H1).
Defined.

Lemma other_players_untouched_witness :
  alice <> bob
  ∧ points_of (snd (sample_transact bob (BuyPoints pittance)
                      (sample_run round_open genesis))) alice
    = points_of (sample_run round_open genesis) alice
  ∧ hasActiveRound (snd (sample_transact bob (BuyPoints pittance)
                           (sample_run round_open genesis))) alice
    = hasActiveRound (sample_run round_open genesis) alice.
Proof.
  assert (alice <> bob) as Hne by discriminate.
  split; [exact Hne |].
  destruct (other_players_untouched contract verifier (source x05)
              (sample_run round_open genesis) bob (BuyPoints pittance) alice Hne)
    as (_ & _ & _ & _ & Ha & Hp & _).
  split; [exact Hp | exact Ha].
Defined.

Lemma silent_player_views_witness :
  forallb (fun tx => negb (fst tx =? bob)%N) round_open = true
  ∧ getEncryptedPoints (sample_run round_open genesis) bob = 0%N
  ∧ hasActiveRound (sample_run round_open genesis) bob = false.
Proof.
  assert (forallb (fun tx => negb (fst tx =? bob)%N) round_open = true) as H
    by reflexivity.
  split; [exact H |].
  destruct (silent_player_views contract verifier (source x05) round_open bob H)
    as (Hp & _ & _ & _ & Ha).
  split; [exact Hp | exact Ha].
Defined.

Lemma allowances_never_revoked_witness :
  (3%N, alice) ∈ persisted (sample_run [(alice, BuyPoints (10 ^ 18))] genesis)
  ∧ (3%N, alice)
    ∈ persisted (sample_run [(bob, StartGame); (alice, BuyPoints pittance)]
                   (sample_run [(alice, BuyPoints (10 ^ 18))] genesis)).
Proof.
  assert ((3%N, alice)
          ∈ persisted (sample_run [(alice, BuyPoints (10 ^ 18))] genesis)) as H.
  { apply (bool_decide_unpack _). vm_compute. exact I. }
  split; [exact H |].
  exact (allowances_never_revoked contract verifier (source x05) _ _ _ _ H).
Defined.

Lemma log_records_commits_witness :
  sample_reachable genesis
  ∧ events (snd (sample_transact alice StartGame genesis))
    = events genesis
      ++ (if succeeded (fst (sample_transact alice StartGame genesis))
          then logged alice StartGame (snd (sample_transact alice StartGame genesis))
          else [])
  ∧ length (events (sample_run round_open genesis))
    = commits contract verifier (source x05) round_open genesis.
Proof.
  assert (sample_reachable genesis) as Hr by constructor.
  destruct (log_records_commits contract verifier (source x05)) as [Hstep Hrun].
  split; [exact Hr |]. split.
  - exact (proj1 (Hstep genesis alice StartGame Hr)).
  - exact (Hrun round_open).
Defined.

Lemma stored_values_decryptable_witness :
  sample_reachable (sample_run round_open genesis)
  ∧ getLastEncryptedDice (sample_run round_open genesis) alice <> 0%N
  ∧ (getLastEncryptedDice (sample_run round_open genesis) alice, alice)
    ∈ persisted (sample_run round_open genesis)
  ∧ (getLastEncryptedDice (sample_run round_open genesis) alice, contract)
    ∈ persisted (sample_run round_open genesis).
Proof.
  assert (sample_reachable (sample_run round_open genesis)) as Hr
    by now apply sample_run_reachable.
  assert (getLastEncryptedDice (sample_run round_open genesis) alice <> 0%N)
    as Hne by (vm_compute; discriminate).
  split; [exact Hr |]. split; [exact Hne |].
  destruct (stored_values_decryptable contract verifier (source x05) _ alice Hr)
    as (_ & Hd & _).
  exact (Hd Hne).
Defined.

Lemma handles_never_reset_witness :
  sample_reachable (sample_run [(alice, BuyPoints (10 ^ 18))] genesis)
  ∧ getEncryptedPoints (sample_run [(alice, BuyPoints (10 ^ 18))] genesis) alice
    <> 0%N
  ∧ getEncryptedPoints
      (sample_run [(alice, StartGame); (alice, SubmitGuess 77 [x02])]
         (sample_run [(alice, BuyPoints (10 ^ 18))] genesis)) alice <> 0%N.
Proof.
  assert (sample_reachable (sample_run [(alice, BuyPoints (10 ^ 18))] genesis))
    as Hr by now apply sample_run_reachable.
  assert (getEncryptedPoints
            (sample_run [(alice, BuyPoints (10 ^ 18))] genesis) alice <> 0%N)
    as Hne by (vm_compute; discriminate).
  split; [exact Hr |]. split; [exact Hne |].
  destruct (handles_never_reset contract verifier (source x05) _
              [(alice, StartGame); (alice, SubmitGuess 77 [x02])] alice Hr)
    as (Hp & _).
  exact (Hp Hne).
Defined.

Lemma dice_fixed_while_open_witness :
  sample_reachable (sample_run round_open genesis)
  ∧ hasActiveRound (sample_run round_open genesis) alice = true
  ∧ no_submit_by alice [(bob, StartGame); (alice, StartGame);
                        (bob, SubmitGuess 78 [x01])] = true
  ∧ dice_of (sample_run [(bob, StartGame); (alice, StartGame);
                         (bob, SubmitGuess 78 [x01])]
               (sample_run round_open genesis)) alice
    = dice_of (sample_run round_open genesis) alice.
Proof.
  assert (sample_reachable (sample_run round_open genesis)) as Hr
    by now apply sample_run_reachable.
  assert (hasActiveRound (sample_run round_open genesis) alice = true) as Ha
    by (vm_compute; reflexivity).
  assert (no_submit_by alice [(bob, StartGame); (alice, StartGame);
                              (bob, SubmitGuess 78 [x01])] = true) as Hno
    by reflexivity.
  split; [exact Hr |]. split; [exact Ha |]. split; [exact Hno |].
  exact (proj1 (dice_fixed_while_open contract verifier (source x05) _ _ alice
                  Hr Ha Hno)).
Defined.

Lemma round_rules_witness :
  sample_reachable (sample_run round_open genesis)
  ∧ hasActiveRound (sample_run round_open genesis) alice = true
  ∧ verifyInput contract verifier alice 77 [x01] = Some x01
  ∧ 1 <= plain 0 (dice_of (sample_run round_open genesis) alice) <= 6
  ∧ plain 0 (reward_of
      (snd (sample_transact alice (SubmitGuess 77 [x01])
              (sample_run round_open genesis))) alice)
    = (if byte_value x01
          =? correctGuess (plain 0 (dice_of (sample_run round_open genesis) alice))
       then 10000 else 0).
Proof.
  assert (sample_reachable (sample_run round_open genesis)) as Hr
    by now apply sample_run_reachable.
  assert (hasActiveRound (sample_run round_open genesis) alice = true) as Ha
    by (vm_compute; reflexivity).
  assert (verifyInput contract verifier alice 77 [x01] = Some x01) as Hv
    by reflexivity.
  split; [exact Hr |]. split; [exact Ha |]. split; [exact Hv |].
  destruct (round_rules contract verifier (source x05) _ alice 77 [x01] x01
              Hr Ha Hv) as (Hd & _ & _ & _ & Hrew).
  split; [exact Hd | exact Hrew].
Defined.

Lemma receipt_table_witness :
  sample_reachable (sample_run round_open genesis)
  ∧ fst (sample_transact alice (SubmitGuess 77 []) (sample_run round_open genesis))
    = receipt_of contract verifier alice (SubmitGuess 77 [])
        (sample_run round_open genesis).
Proof.
  assert (sample_reachable (sample_run round_open genesis)) as Hr
    by now apply sample_run_reachable.
  split; [exact Hr |].
  exact (receipt_table contract verifier (source x05) _ alice
           (SubmitGuess 77 []) Hr).
Defined.

Lemma last_outcome_consistent_witness :
  sample_reachable
    (sample_run [(alice, StartGame); (alice, SubmitGuess 77 [x01])] genesis)
  ∧ plain 0 (reward_of
      (sample_run [(alice, StartGame); (alice, SubmitGuess 77 [x01])] genesis)
      alice)
    = (if plain false (win_of
            (sample_run [(alice, StartGame); (alice, SubmitGuess 77 [x01])]
               genesis) alice)
       then 10000 else 0).
Proof.
  assert (sample_reachable
            (sample_run [(alice, StartGame); (alice, SubmitGuess 77 [x01])]
               genesis)) as Hr
    by now apply sample_run_reachable.
  split; [exact Hr |].
  exact (proj1 (last_outcome_consistent contract verifier (source x05) _ alice
                  Hr)).
Defined.

Lemma dice_always_valid_witness :
  sample_reachable (sample_run round_open genesis)
  ∧ ((getLastEncryptedDice (sample_run round_open genesis) bob = 0%N
      ∧ plain 0 (dice_of (sample_run round_open genesis) bob) = 0
      ∧ hasActiveRound (sample_run round_open genesis) bob = false)
     ∨ (getLastEncryptedDice (sample_run round_open genesis) bob <> 0%N
        ∧ 1 <= plain 0 (dice_of (sample_run round_open genesis) bob) <= 6)).
Proof.
  assert (sample_reachable (sample_run round_open genesis)) as Hr
    by now apply sample_run_reachable.
  split; [exact Hr |].
  exact (dice_always_valid contract verifier (source x05) _ bob Hr).
Defined.
